(** * Cutter-line adaptation of the page-split filter

    A shallow embedding of [src/core/filters/page_split/PageLayoutAdapter.cpp]
    (namespace [page_split], class [PageLayoutAdapter]) and the properties of
    its four operations: [adaptCutter], [adaptCutters],
    [correctPageLayoutType] and [adaptPageLayout]; and of the small vector
    class of [src/foundation/VecNT.h].

    Numbers.  The program computes on [qreal] (IEEE double).  Every finite
    double is a rational, so coordinates are taken in the rationals [Q], and
    the comparisons that the program makes on doubles ([==], [<], [<=]) are
    the boolean comparisons of [Q].  The adapter is given twice.  In
    [PageLayoutAdapter] every arithmetic step is exact.  In [Computed] the
    four arithmetic operations are a parameter: with [exactArith] it is the
    exact adapter again, and with [Double.arith], where each result is
    rounded to the nearest double, it computes what the program computes as
    long as no result leaves the range of a double (there are no NaNs and
    no infinities).  A property stated for every arithmetic holds of both.
    An equation between computed coordinates is stated with [==] ([Qeq]),
    an equation between values that the program only copies with [=]. *)

From Stdlib Require Import QArith Qround Qabs Qminmax Qpower Lqa Lia ZArith.
From Stdlib Require Import Sorting.Sorted Sorting.Permutation.
From stdpp Require Import base list fin vector finite.

Local Open Scope Q_scope.

(** [a < b] on two coordinates. *)
Definition Qltb (a b : Q) : bool :=
  match a ?= b with Lt => true | _ => false end.

(** ** The geometry primitives

    The point, line and rectangle classes come from the Qt toolkit and are
    not among the sources; the definitions below give the part of their
    interface that [PageLayoutAdapter.cpp] calls. *)

Module QPointF.

Record t : Type := mk { x : Q; y : Q }.

(** The default-constructed point. *)
Definition null : t := mk 0 0.

Definition setX (p : t) (v : Q) : t := mk v (y p).

Definition add (p q : t) : t := mk (x p + x q) (y p + y q).
Definition sub (p q : t) : t := mk (x p - x q) (y p - y q).
Definition scale (p : t) (c : Q) : t := mk (x p * c) (y p * c).

(** Modelled from the spec: [operator==] of the point class, which is
    not among the sources; two points are equal when they coincide
    exactly. *)
Definition eqb (p q : t) : bool := Qeq_bool (x p) (x q) && Qeq_bool (y p) (y q).

End QPointF.

Module QLineF.

Record t : Type := mk { p1 : QPointF.t; p2 : QPointF.t }.

Definition x1 (l : t) : Q := QPointF.x (p1 l).
Definition y1 (l : t) : Q := QPointF.y (p1 l).
Definition x2 (l : t) : Q := QPointF.x (p2 l).
Definition y2 (l : t) : Q := QPointF.y (p2 l).

(** The default-constructed line. *)
Definition null : t := mk QPointF.null QPointF.null.

(** The line through [(x1, y1)] and [(x2, y2)]. *)
Definition ofCoords (x1 y1 x2 y2 : Q) : t := mk (QPointF.mk x1 y1) (QPointF.mk x2 y2).

Definition setP1 (l : t) (p : QPointF.t) : t := mk p (p2 l).
Definition setP2 (l : t) (p : QPointF.t) : t := mk (p1 l) p.

(** Modelled from the spec: [isNull] of the line class, which is not
    among the sources; a line is null when it is degenerate, its two
    end points being the same point. *)
Definition isNull (l : t) : bool :=
  Qeq_bool (x1 l) (x2 l) && Qeq_bool (y1 l) (y2 l).

Definition pointAt (l : t) (c : Q) : QPointF.t :=
  QPointF.mk (x1 l + (x2 l - x1 l) * c) (y1 l + (y2 l - y1 l) * c).

Inductive IntersectionType : Type :=
| NoIntersection
| BoundedIntersection
| UnboundedIntersection.

(** Modelled from the spec: [intersects] of the line class, which is not
    among the sources.  It intersects the infinite extensions of the two
    lines, answers [NoIntersection] for parallel and for collinear lines
    (and then leaves the point of its caller, always a default-constructed
    one here, as it is), and otherwise gives the crossing point together
    with whether it lies on both segments. *)
Definition intersects (l m : t) : IntersectionType * QPointF.t :=
  let a := QPointF.sub (p2 l) (p1 l) in
  let b := QPointF.sub (p1 m) (p2 m) in
  let c := QPointF.sub (p1 l) (p1 m) in
  let denominator := QPointF.y a * QPointF.x b - QPointF.x a * QPointF.y b in
  if Qeq_bool denominator 0 then (NoIntersection, QPointF.null)
  else
    let reciprocal := 1 / denominator in
    let na := (QPointF.y b * QPointF.x c - QPointF.x b * QPointF.y c) * reciprocal in
    let intersectionPoint := QPointF.add (p1 l) (QPointF.scale a na) in
    if Qltb na 0 || Qltb 1 na then (UnboundedIntersection, intersectionPoint)
    else
      let nb := (QPointF.x a * QPointF.y c - QPointF.y a * QPointF.x c) * reciprocal in
      if Qltb nb 0 || Qltb 1 nb then (UnboundedIntersection, intersectionPoint)
      else (BoundedIntersection, intersectionPoint).

End QLineF.

(** Modelled from the spec: [int(d)], the conversion of a real to an
    integer, which drops the fraction. *)
Definition truncate (d : Q) : Z := if Qle_bool 0 d then Qfloor d else Qceiling d.

(** Modelled from the spec: [qRound], the rounding of a coordinate to the
    nearest integer that [toRect] and [toLine] apply; it is not among the
    sources.  The formula is the one of Qt 5, the version whose [toRect]
    is modelled below: [d >= 0 ? int(d + 0.5)
    : int(d - double(int(d - 1)) + 0.5) + int(d - 1)]. *)
Definition qRound (d : Q) : Z :=
  if Qle_bool 0 d then truncate (d + (1 # 2))
  else (truncate (d - inject_Z (truncate (d - 1)) + (1 # 2)) + truncate (d - 1))%Z.

Module QRectF.

(** A rectangle is kept as its top-left corner and its size. *)
Record t : Type := mk { xp : Q; yp : Q; w : Q; h : Q }.

Definition left (r : t) : Q := xp r.
Definition top (r : t) : Q := yp r.
Definition right (r : t) : Q := xp r + w r.
Definition bottom (r : t) : Q := yp r + h r.

Definition topLeft (r : t) : QPointF.t := QPointF.mk (left r) (top r).
Definition topRight (r : t) : QPointF.t := QPointF.mk (right r) (top r).
Definition bottomLeft (r : t) : QPointF.t := QPointF.mk (left r) (bottom r).
Definition bottomRight (r : t) : QPointF.t := QPointF.mk (right r) (bottom r).

(** Modelled from the spec: [isValid] of the rectangle class, which is
    not among the sources; a rectangle of zero or negative extent is
    invalid. *)
Definition isValid (r : t) : bool := Qltb 0 (w r) && Qltb 0 (h r).

(** Modelled from the spec: [operator==] of the rectangle class, which
    is not among the sources. *)
Definition eqb (r s : t) : bool :=
  Qeq_bool (xp r) (xp s) && Qeq_bool (yp r) (yp s)
  && Qeq_bool (w r) (w s) && Qeq_bool (h r) (h s).

(** Modelled from the spec: [toRect] of the rectangle class, which is not
    among the sources; as Qt 5 has it, the integer rectangle between the
    rounded corners [(qRound(xp), qRound(yp))] and
    [(qRound(xp + w) - 1, qRound(yp + h) - 1)], so that its four edges are
    the rounded edges; it is taken back as a rectangle of reals. *)
Definition toRect (r : t) : t :=
  let nx := qRound (xp r) in
  let ny := qRound (yp r) in
  mk (inject_Z nx) (inject_Z ny)
     (inject_Z (qRound (xp r + w r) - nx)) (inject_Z (qRound (yp r + h r) - ny)).

End QRectF.

(** Modelled from the spec: [toLine] of the line class, which is not among
    the sources; the line with integer-rounded end points, taken back as a
    line of reals. *)
Definition toLine (l : QLineF.t) : QLineF.t :=
  QLineF.mk
    (QPointF.mk (inject_Z (qRound (QLineF.x1 l))) (inject_Z (qRound (QLineF.y1 l))))
    (QPointF.mk (inject_Z (qRound (QLineF.x2 l))) (inject_Z (qRound (QLineF.y2 l)))).

(** ** The page layout *)

Module PageLayout.

Inductive LayoutType : Type :=
| SINGLE_PAGE_UNCUT
| SINGLE_PAGE_CUT
| TWO_PAGES.

(** Modelled from the spec: the class [PageLayout], whose file is not
    among the sources.  A layout has an outline, a type and its cutter
    lines: none when uncut, two when cut, one for two pages.  The outline
    is kept as the rectangle that [uncutOutline().boundingRect()] gives. *)
Record t : Type := mk {
  uncutOutline : QRectF.t;
  type : LayoutType;
  cutterLines : list QLineF.t
}.

(** The three constructors the adapter calls. *)
Definition ofRect (fullRect : QRectF.t) : t :=
  mk fullRect SINGLE_PAGE_UNCUT [].
Definition ofCutters (fullRect : QRectF.t) (cutter1 cutter2 : QLineF.t) : t :=
  mk fullRect SINGLE_PAGE_CUT [cutter1; cutter2].
Definition ofSplitLine (fullRect : QRectF.t) (splitLine : QLineF.t) : t :=
  mk fullRect TWO_PAGES [splitLine].

Definition boundingRect (l : t) : QRectF.t := uncutOutline l.

(** Asking for a cutter line the layout does not have is a programming
    error of the caller; the model answers the default line there. *)
Definition cutterLine (l : t) (idx : nat) : QLineF.t :=
  nth idx (cutterLines l) QLineF.null.

Definition setType (l : t) (ty : LayoutType) : t :=
  mk (uncutOutline l) ty (cutterLines l).

End PageLayout.

(** ** The adapter *)

Module PageLayoutAdapter.

Import QLineF.

(** Pulls an intersection point back between the left and the right edge. *)
Definition clampToRect (p : QPointF.t) (lo hi : Q) : QPointF.t :=
  if Qltb (QPointF.x p) lo then QPointF.setX p lo
  else if Qltb hi (QPointF.x p) then QPointF.setX p hi
  else p.

Definition upperBorder (newRect : QRectF.t) : QLineF.t :=
  QLineF.mk (QRectF.topLeft newRect) (QRectF.topRight newRect).

Definition lowerBorder (newRect : QRectF.t) : QLineF.t :=
  QLineF.mk (QRectF.bottomLeft newRect) (QRectF.bottomRight newRect).

Definition adaptCutter (cutterLine : QLineF.t) (newRect : QRectF.t) : QLineF.t :=
  if negb (QRectF.isValid newRect) || isNull cutterLine then cutterLine
  else
    match intersects (upperBorder newRect) cutterLine with
    | (NoIntersection, _) => cutterLine
    | (_, upperIntersection) =>
        let upperIntersection :=
          clampToRect upperIntersection
            (QPointF.x (QRectF.topLeft newRect)) (QPointF.x (QRectF.topRight newRect)) in
        match intersects (lowerBorder newRect) cutterLine with
        | (NoIntersection, _) => cutterLine
        | (_, lowerIntersection) =>
            let lowerIntersection :=
              clampToRect lowerIntersection
                (QPointF.x (QRectF.bottomLeft newRect))
                (QPointF.x (QRectF.bottomRight newRect)) in
            QLineF.mk upperIntersection lowerIntersection
        end
    end.

(** The comparison handed to [std::sort]. *)
Definition lessThan (line1 line2 : QLineF.t) : bool := Qltb (x1 line1) (x1 line2).

(** [std::sort] on the vector.  The order it leaves between lines of equal
    [x1] is not specified; the model keeps them in their input order, as
    an insertion sort does. *)
Fixpoint insertSorted (c : QLineF.t) (cs : list QLineF.t) : list QLineF.t :=
  match cs with
  | [] => [c]
  | d :: cs' => if lessThan d c then d :: insertSorted c cs' else c :: d :: cs'
  end.

Fixpoint sortCutters (cs : list QLineF.t) : list QLineF.t :=
  match cs with
  | [] => []
  | c :: cs' => insertSorted c (sortCutters cs')
  end.

(** One turn of the loop that looks at the lines at [i - 1] and [i]. *)
Definition resolveAt (upperBound lowerBound : Q)
    (adaptedCutters : list QLineF.t) (i : nat) : list QLineF.t :=
  match adaptedCutters !! (i - 1)%nat, adaptedCutters !! i with
  | Some cutterLeft, Some cutterRight =>
      match intersects cutterLeft cutterRight with
      | (NoIntersection, _) => adaptedCutters
      | (_, intersection) =>
          if Qltb (QPointF.y intersection) lowerBound
             && Qltb upperBound (QPointF.y intersection)
          then
            let '(cutterLeft, cutterRight) :=
              if Qle_bool (lowerBound - QPointF.y intersection)
                          ((lowerBound - upperBound) / 2)
              then
                let newY := lowerBound in
                (setP2 cutterLeft (QPointF.mk (QPointF.x intersection) newY),
                 setP2 cutterRight (QPointF.mk (QPointF.x intersection) newY))
              else
                let newY := upperBound in
                (setP1 cutterLeft (QPointF.mk (QPointF.x intersection) newY),
                 setP1 cutterRight (QPointF.mk (QPointF.x intersection) newY))
            in
            <[i := cutterRight]> (<[(i - 1)%nat := cutterLeft]> adaptedCutters)
          else adaptedCutters
      end
  | _, _ => adaptedCutters
  end.

Definition adaptCutters (cuttersList : list QLineF.t) (newRect : QRectF.t)
    : list QLineF.t :=
  let adaptedCutters := sortCutters (map (fun cutter => adaptCutter cutter newRect) cuttersList) in
  let upperBound := QRectF.top newRect in
  let lowerBound := QRectF.bottom newRect in
  foldl (resolveAt upperBound lowerBound) adaptedCutters
        (seq 1 (length adaptedCutters - 1)).

Import PageLayout.

(** The test made on a rounded cutter line against the rounded outline:
    the line is vertical and lies on the left or on the right edge. *)
Definition matchesBound (cutterLine : QLineF.t) (outline : QRectF.t) : bool :=
  Qeq_bool (x1 cutterLine) (x2 cutterLine)
  && (Qeq_bool (x1 cutterLine) (QRectF.left outline)
      || Qeq_bool (x1 cutterLine) (QRectF.right outline)).

Definition isNo (ty : IntersectionType) : bool :=
  match ty with NoIntersection => true | _ => false end.

Definition correctPageLayoutType (layout : PageLayout.t) : PageLayout.t :=
  let outline := QRectF.toRect (boundingRect layout) in
  let layout :=
    match type layout with
    | SINGLE_PAGE_CUT =>
        let cutterLine1 := toLine (cutterLine layout 0) in
        let cutterLine2 := toLine (cutterLine layout 1) in
        let layout :=
          if matchesBound cutterLine1 outline && matchesBound cutterLine2 outline
          then setType layout SINGLE_PAGE_UNCUT
          else layout in
        let '(intersectType, intersection) := intersects cutterLine1 cutterLine2 in
        if (negb (isNo intersectType)
            && (Qltb (QRectF.top outline) (QPointF.y intersection)
                && Qltb (QPointF.y intersection) (QRectF.bottom outline)))
           || (isNo intersectType
               && QPointF.eqb (pointAt cutterLine1 0) (pointAt cutterLine2 0))
        then setType layout SINGLE_PAGE_UNCUT
        else layout
    | _ => layout
    end in
  match type layout with
  | TWO_PAGES =>
      let cutterLine1 := toLine (cutterLine layout 0) in
      if matchesBound cutterLine1 outline
      then setType layout SINGLE_PAGE_UNCUT
      else layout
  | _ => layout
  end.

Definition adaptPageLayout (pageLayout : PageLayout.t) (outline : QRectF.t)
    : PageLayout.t :=
  if QRectF.eqb (boundingRect pageLayout) outline then pageLayout
  else
    match type pageLayout with
    | SINGLE_PAGE_CUT =>
        let adaptedCutters :=
          adaptCutters [cutterLine pageLayout 0; cutterLine pageLayout 1] outline in
        correctPageLayoutType
          (ofCutters outline (nth 0 adaptedCutters QLineF.null)
                             (nth 1 adaptedCutters QLineF.null))
    | TWO_PAGES =>
        let adaptedCutter := adaptCutter (cutterLine pageLayout 0) outline in
        correctPageLayoutType (ofSplitLine outline adaptedCutter)
    | SINGLE_PAGE_UNCUT => ofRect outline
    end.

End PageLayoutAdapter.

(** * The adapter as it computes

    The definitions above take every arithmetic step as exact.  The program
    computes on doubles, where each step is rounded.  Every finite double is
    a rational and comparisons of doubles are exact, so the same functions
    are given once more with the four arithmetic operations as a parameter:
    with the exact operations they are the definitions above, and with the
    rounded operations of [Double] they compute what the program computes
    as long as no result exceeds the range of a double. *)

Record Arith : Type := mkArith {
  a_add : Q -> Q -> Q;
  a_sub : Q -> Q -> Q;
  a_mul : Q -> Q -> Q;
  a_div : Q -> Q -> Q
}.

Definition exactArith : Arith := mkArith Qplus Qminus Qmult Qdiv.

Module Double.

(** [2 ^ e], for an exponent of either sign. *)
Definition pow2 (e : Z) : Q := Qpower 2 e.

(** The [e] with [2 ^ e <= |q| < 2 ^ (e + 1)], for [q] other than zero. *)
Definition exponent (q : Q) : Z :=
  let e0 := (Z.log2 (Z.abs (Qnum q)) - Z.log2 (Zpos (Qden q)))%Z in
  if Qle_bool (pow2 e0) (Qabs q) then e0 else (e0 - 1)%Z.

(** The nearest integer to [r >= 0], the even one of two that are equally
    near. *)
Definition roundHalfEven (r : Q) : Z :=
  let f := Qfloor r in
  match Qcompare (r - inject_Z f) (1 # 2) with
  | Lt => f
  | Gt => (f + 1)%Z
  | Eq => if Z.even f then f else (f + 1)%Z
  end.

(** The double nearest to [q]: 53 significant bits, exponents from [-1074]
    up, ties to the even significand.  Values beyond the largest double are
    not clipped. *)
Definition round (q : Q) : Q :=
  if Qeq_bool q 0 then 0
  else
    let quantum := pow2 (Z.max (exponent q - 52) (-1074)) in
    let m := inject_Z (roundHalfEven (Qabs q / quantum)) in
    Qred ((if Qle_bool 0 q then m else - m) * quantum).

(** The arithmetic of doubles: the exact result, rounded. *)
Definition arith : Arith :=
  mkArith (fun a b => round (a + b)) (fun a b => round (a - b))
          (fun a b => round (a * b)) (fun a b => round (a / b)).

End Double.

Module Computed.

Section WithArith.

Variable A : Arith.

Local Infix "+." := (a_add A) (at level 50, left associativity).
Local Infix "-." := (a_sub A) (at level 50, left associativity).
Local Infix "*." := (a_mul A) (at level 40, left associativity).
Local Infix "/." := (a_div A) (at level 40, left associativity).

Import QLineF PageLayout.

(** The rectangle keeps its corner and its size; the right and the bottom
    edge are sums. *)
Definition right (r : QRectF.t) : Q := QRectF.xp r +. QRectF.w r.
Definition bottom (r : QRectF.t) : Q := QRectF.yp r +. QRectF.h r.

Definition upperBorder (newRect : QRectF.t) : QLineF.t :=
  QLineF.mk (QPointF.mk (QRectF.left newRect) (QRectF.top newRect))
            (QPointF.mk (right newRect) (QRectF.top newRect)).

Definition lowerBorder (newRect : QRectF.t) : QLineF.t :=
  QLineF.mk (QPointF.mk (QRectF.left newRect) (bottom newRect))
            (QPointF.mk (right newRect) (bottom newRect)).

(** Modelled from the spec: [intersects] of the line class, step by step
    as in [QLineF.intersects] above. *)
Definition intersects (l m : QLineF.t) : IntersectionType * QPointF.t :=
  let ax := x2 l -. x1 l in
  let ay := y2 l -. y1 l in
  let bx := x1 m -. x2 m in
  let by' := y1 m -. y2 m in
  let cx := x1 l -. x1 m in
  let cy := y1 l -. y1 m in
  let denominator := ay *. bx -. ax *. by' in
  if Qeq_bool denominator 0 then (NoIntersection, QPointF.null)
  else
    let reciprocal := 1 /. denominator in
    let na := (by' *. cx -. bx *. cy) *. reciprocal in
    let intersectionPoint := QPointF.mk (x1 l +. ax *. na) (y1 l +. ay *. na) in
    if Qltb na 0 || Qltb 1 na then (UnboundedIntersection, intersectionPoint)
    else
      let nb := (ax *. cy -. ay *. cx) *. reciprocal in
      if Qltb nb 0 || Qltb 1 nb then (UnboundedIntersection, intersectionPoint)
      else (BoundedIntersection, intersectionPoint).

Definition pointAt (l : QLineF.t) (c : Q) : QPointF.t :=
  QPointF.mk (x1 l +. (x2 l -. x1 l) *. c) (y1 l +. (y2 l -. y1 l) *. c).

Definition adaptCutter (cutterLine : QLineF.t) (newRect : QRectF.t) : QLineF.t :=
  if negb (QRectF.isValid newRect) || isNull cutterLine then cutterLine
  else
    match intersects (upperBorder newRect) cutterLine with
    | (NoIntersection, _) => cutterLine
    | (_, upperIntersection) =>
        let upperIntersection :=
          PageLayoutAdapter.clampToRect upperIntersection
            (QRectF.left newRect) (right newRect) in
        match intersects (lowerBorder newRect) cutterLine with
        | (NoIntersection, _) => cutterLine
        | (_, lowerIntersection) =>
            let lowerIntersection :=
              PageLayoutAdapter.clampToRect lowerIntersection
                (QRectF.left newRect) (right newRect) in
            QLineF.mk upperIntersection lowerIntersection
        end
    end.

(** One turn of the loop that looks at the lines at [i - 1] and [i]. *)
Definition resolveAt (upperBound lowerBound : Q)
    (adaptedCutters : list QLineF.t) (i : nat) : list QLineF.t :=
  match adaptedCutters !! (i - 1)%nat, adaptedCutters !! i with
  | Some cutterLeft, Some cutterRight =>
      match intersects cutterLeft cutterRight with
      | (NoIntersection, _) => adaptedCutters
      | (_, intersection) =>
          if Qltb (QPointF.y intersection) lowerBound
             && Qltb upperBound (QPointF.y intersection)
          then
            let '(cutterLeft, cutterRight) :=
              if Qle_bool (lowerBound -. QPointF.y intersection)
                          ((lowerBound -. upperBound) /. 2)
              then
                let newY := lowerBound in
                (setP2 cutterLeft (QPointF.mk (QPointF.x intersection) newY),
                 setP2 cutterRight (QPointF.mk (QPointF.x intersection) newY))
              else
                let newY := upperBound in
                (setP1 cutterLeft (QPointF.mk (QPointF.x intersection) newY),
                 setP1 cutterRight (QPointF.mk (QPointF.x intersection) newY))
            in
            <[i := cutterRight]> (<[(i - 1)%nat := cutterLeft]> adaptedCutters)
          else adaptedCutters
      end
  | _, _ => adaptedCutters
  end.

Definition adaptCutters (cuttersList : list QLineF.t) (newRect : QRectF.t)
    : list QLineF.t :=
  let adaptedCutters :=
    PageLayoutAdapter.sortCutters
      (map (fun cutter => adaptCutter cutter newRect) cuttersList) in
  let upperBound := QRectF.top newRect in
  let lowerBound := bottom newRect in
  foldl (resolveAt upperBound lowerBound) adaptedCutters
        (seq 1 (length adaptedCutters - 1)).

Definition matchesBound (cutterLine : QLineF.t) (outline : QRectF.t) : bool :=
  Qeq_bool (x1 cutterLine) (x2 cutterLine)
  && (Qeq_bool (x1 cutterLine) (QRectF.left outline)
      || Qeq_bool (x1 cutterLine) (right outline)).

Definition correctPageLayoutType (layout : PageLayout.t) : PageLayout.t :=
  let outline := QRectF.toRect (boundingRect layout) in
  let layout :=
    match type layout with
    | SINGLE_PAGE_CUT =>
        let cutterLine1 := toLine (cutterLine layout 0) in
        let cutterLine2 := toLine (cutterLine layout 1) in
        let layout :=
          if matchesBound cutterLine1 outline && matchesBound cutterLine2 outline
          then setType layout SINGLE_PAGE_UNCUT
          else layout in
        let '(intersectType, intersection) := intersects cutterLine1 cutterLine2 in
        if (negb (PageLayoutAdapter.isNo intersectType)
            && (Qltb (QRectF.top outline) (QPointF.y intersection)
                && Qltb (QPointF.y intersection) (bottom outline)))
           || (PageLayoutAdapter.isNo intersectType
               && QPointF.eqb (pointAt cutterLine1 0) (pointAt cutterLine2 0))
        then setType layout SINGLE_PAGE_UNCUT
        else layout
    | _ => layout
    end in
  match type layout with
  | TWO_PAGES =>
      let cutterLine1 := toLine (cutterLine layout 0) in
      if matchesBound cutterLine1 outline
      then setType layout SINGLE_PAGE_UNCUT
      else layout
  | _ => layout
  end.

Definition adaptPageLayout (pageLayout : PageLayout.t) (outline : QRectF.t)
    : PageLayout.t :=
  if QRectF.eqb (boundingRect pageLayout) outline then pageLayout
  else
    match type pageLayout with
    | SINGLE_PAGE_CUT =>
        let adaptedCutters :=
          adaptCutters [cutterLine pageLayout 0; cutterLine pageLayout 1] outline in
        correctPageLayoutType
          (ofCutters outline (nth 0 adaptedCutters QLineF.null)
                             (nth 1 adaptedCutters QLineF.null))
    | TWO_PAGES =>
        let adaptedCutter := adaptCutter (cutterLine pageLayout 0) outline in
        correctPageLayoutType (ofSplitLine outline adaptedCutter)
    | SINGLE_PAGE_UNCUT => ofRect outline
    end.

(** The vector after the first [k] turns of the loop of [adaptCutters]. *)
Definition cuttersAfter (k : nat) (cuttersList : list QLineF.t) (newRect : QRectF.t)
    : list QLineF.t :=
  foldl (resolveAt (QRectF.top newRect) (bottom newRect))
        (PageLayoutAdapter.sortCutters
           (map (fun cutter => adaptCutter cutter newRect) cuttersList))
        (seq 1 k).

(** Two lines whose computed crossing lies strictly inside the vertical
    span [(ub, lb)]. *)
Definition crossesInside (ub lb : Q) (l m : QLineF.t) : Prop :=
  fst (intersects l m) <> NoIntersection
  /\ ub < QPointF.y (snd (intersects l m)) < lb.

(** A cutter line that is vertical and lies on the left or on the right
    edge of the outline. *)
Definition collapsedOnto (c : QLineF.t) (outline : QRectF.t) : Prop :=
  x1 c == x2 c /\ (x1 c == QRectF.left outline \/ x1 c == right outline).

(** Two lines without a crossing whose starting points, as [pointAt(0)]
    gives them, are the same. *)
Definition sameStart (c1 c2 : QLineF.t) : Prop :=
  fst (intersects c1 c2) = NoIntersection
  /\ QPointF.eqb (pointAt c1 0) (pointAt c2 0) = true.

(** The three tests that make [correctPageLayoutType] give up a cut. *)
Definition degenerateCut (outline : QRectF.t) (c1 c2 : QLineF.t) : Prop :=
  (collapsedOnto c1 outline /\ collapsedOnto c2 outline)
  \/ crossesInside (QRectF.top outline) (bottom outline) c1 c2
  \/ sameStart c1 c2.

(** [pointAt(0)] of the line is its first end point. *)
Definition startsAtP1 (c : QLineF.t) : Prop :=
  QPointF.eqb (pointAt c 0) (p1 c) = true.

End WithArith.

End Computed.

(** * Small vectors ([foundation/VecNT.h])

    [VecNT<N, T>] keeps [N] elements of a type [T] in an array.  The class
    is a template: the model takes the element type with the operations the
    class applies to it, and proves what follows from the code alone,
    whatever [T] is. *)

(** The element type: [T()], [T(1)] and the arithmetic the class uses. *)
Class Scalar (T : Type) : Type := {
  s_zero : T;
  s_one : T;
  s_add : T -> T -> T;
  s_sub : T -> T -> T;
  s_mul : T -> T -> T;
  s_div : T -> T -> T;
  s_neg : T -> T
}.

(** The [static_cast]s between [T] and [qreal]. *)
Class RealCast (T : Type) : Type := {
  ofReal : Q -> T;
  toReal : T -> Q
}.

#[global] Instance Q_Scalar : Scalar Q := {
  s_zero := 0; s_one := 1;
  s_add := Qplus; s_sub := Qminus; s_mul := Qmult; s_div := Qdiv; s_neg := Qopp
}.

#[global] Instance Q_RealCast : RealCast Q := { ofReal := fun d => d; toReal := fun d => d }.

Module VecNT.

(** [T m_data[N]]. *)
Abbreviation t N T := (vec T N).

(** [for (size_t i = 0; i < N; ++i) body], on a state [St]. *)
Definition forEachIndex {N : nat} {St : Type} (body : fin N -> St -> St) (init : St) : St :=
  foldl (fun st i => body i st) init (fin_enum N).

Section Operations.

Context {T : Type} `{Scalar T}.

(** [VecNT()], run on the storage of the new object. *)
Definition construct {N : nat} (storage : t N T) : t N T :=
  forEachIndex (fun i m_data => vinsert i s_zero m_data) storage.

(** [VecNT(const VecNT<N, OT>& other)] and [operator=(const VecNT<N, OT>&)],
    with the [static_cast] from [OT] to [T]. *)
Definition convert {N : nat} {OT : Type} (cast : OT -> T) (other : t N OT)
    (storage : t N T) : t N T :=
  forEachIndex (fun i m_data => vinsert i (cast (other !!! i)) m_data) storage.

(** [operator+=(T scalar)]. *)
Definition plusAssignScalar {N : nat} (this : t N T) (scalar : T) : t N T :=
  forEachIndex (fun i m_data => vinsert i (s_add (m_data !!! i) scalar) m_data) this.

(** [operator+=(const VecNT& other)]. *)
Definition plusAssign {N : nat} (this other : t N T) : t N T :=
  forEachIndex (fun i m_data => vinsert i (s_add (m_data !!! i) (other !!! i)) m_data) this.

(** [operator-=(T scalar)]. *)
Definition minusAssignScalar {N : nat} (this : t N T) (scalar : T) : t N T :=
  forEachIndex (fun i m_data => vinsert i (s_sub (m_data !!! i) scalar) m_data) this.

(** [operator-=(const VecNT& other)]. *)
Definition minusAssign {N : nat} (this other : t N T) : t N T :=
  forEachIndex (fun i m_data => vinsert i (s_sub (m_data !!! i) (other !!! i)) m_data) this.

(** [operator*=(T scalar)]. *)
Definition timesAssign {N : nat} (this : t N T) (scalar : T) : t N T :=
  forEachIndex (fun i m_data => vinsert i (s_mul (m_data !!! i) scalar) m_data) this.

(** [operator/=(T scalar)]. *)
Definition divAssign {N : nat} (this : t N T) (scalar : T) : t N T :=
  timesAssign this (s_div s_one scalar).

(** [sum()]. *)
Definition sum {N : nat} (this : t N T) : T :=
  forEachIndex (fun i sum => s_add sum (this !!! i)) s_zero.

(** [dot(const VecNT& other)]. *)
Definition dot {N : nat} (this other : t N T) : T :=
  forEachIndex (fun i sum => s_add sum (s_mul (this !!! i) (other !!! i))) s_zero.

Definition squaredNorm {N : nat} (this : t N T) : T := dot this this.

(** [operator+(lhs, rhs)]: a copy of [lhs], then [+=]. *)
Definition plus {N : nat} (lhs rhs : t N T) : t N T :=
  let res := lhs in plusAssign res rhs.

(** [operator-(lhs, rhs)]. *)
Definition minus {N : nat} (lhs rhs : t N T) : t N T :=
  let res := lhs in minusAssign res rhs.

(** [operator-(vec)]. *)
Definition negate {N : nat} (v : t N T) : t N T :=
  let res := v in
  forEachIndex (fun i res => vinsert i (s_neg (res !!! i)) res) res.

(** [operator*(vec, scalar)]. *)
Definition times {N : nat} (v : t N T) (scalar : T) : t N T :=
  let res := v in timesAssign res scalar.

(** [operator*(scalar, vec)]. *)
Definition timesLeft {N : nat} (scalar : T) (v : t N T) : t N T :=
  let res := v in timesAssign res scalar.

(** [operator/(vec, scalar)]. *)
Definition divide {N : nat} (v : t N T) (scalar : T) : t N T :=
  let res := v in divAssign res scalar.

(** [operator/(scalar, vec)]. *)
Definition divideLeft {N : nat} (scalar : T) (v : t N T) : t N T :=
  let res := v in divAssign res scalar.

(** The index [i] of a vector of [n] elements, as an index of a vector of
    [n + 1] elements, and the index [n] of the latter. *)
Fixpoint sameIndex {n : nat} (i : fin n) : fin (S n) :=
  match i with
  | Fin.F1 => Fin.F1
  | Fin.FS j => Fin.FS (sameIndex j)
  end.

Fixpoint lastIndex (n : nat) : fin (S n) :=
  match n with
  | O => Fin.F1
  | S m => Fin.FS (lastIndex m)
  end.

(** [VecNT(const VecNT<N - 1, OT>& lesser, T last)]. *)
Definition ofLesser {n : nat} {OT : Type} (cast : OT -> T) (lesser : t n OT) (last : T)
    (storage : t (S n) T) : t (S n) T :=
  let m_data :=
    forEachIndex (fun i m_data => vinsert (sameIndex i) (cast (lesser !!! i)) m_data)
                 storage in
  vinsert (lastIndex n) last m_data.

(** [VecNT(T x, T y)]. *)
Definition ofXY (x y : T) (storage : t 2 T) : t 2 T :=
  vinsert 1%fin y (vinsert 0%fin x storage).

(** [VecNT(const QPointF& pt)] and [operator QPointF()], for [N = 2]. *)
Definition ofQPointF `{RealCast T} (pt : QPointF.t) (storage : t 2 T) : t 2 T :=
  vinsert 1%fin (ofReal (QPointF.y pt)) (vinsert 0%fin (ofReal (QPointF.x pt)) storage).

Definition toQPointF `{RealCast T} (this : t 2 T) : QPointF.t :=
  QPointF.mk (toReal (this !!! 0%fin)) (toReal (this !!! 1%fin)).

End Operations.

End VecNT.

(** * Vocabulary of the statements *)

(** What [intersects] answers is settled by its denominator. *)
Definition denominator (l m : QLineF.t) : Q :=
  (QLineF.y2 l - QLineF.y1 l) * (QLineF.x1 m - QLineF.x2 m)
  - (QLineF.x2 l - QLineF.x1 l) * (QLineF.y1 m - QLineF.y2 m).

(** The spec's clamp: the value pulled into the interval [[lo, hi]]. *)
Definition clampInto (lo hi v : Q) : Q := Qmax lo (Qmin v hi).

(** Ascending by the [x] of the first end point. *)
Definition ascendingByX1 : list QLineF.t -> Prop :=
  Sorted (fun a b => QLineF.x1 a <= QLineF.x1 b).

Fixpoint isAscendingByX1 (cs : list QLineF.t) : bool :=
  match cs with
  | a :: (b :: _) as cs' => Qle_bool (QLineF.x1 a) (QLineF.x1 b) && isAscendingByX1 cs'
  | _ => true
  end.

(** Two lines cross strictly inside the vertical span [(ub, lb)]. *)
Definition crossesInside (ub lb : Q) (l m : QLineF.t) : Prop :=
  fst (QLineF.intersects l m) <> QLineF.NoIntersection
  /\ ub < QPointF.y (snd (QLineF.intersects l m)) < lb.

(** The vector after the first [k] turns of the loop of [adaptCutters]. *)
Definition cuttersAfter (k : nat) (cuttersList : list QLineF.t) (newRect : QRectF.t)
    : list QLineF.t :=
  foldl (PageLayoutAdapter.resolveAt (QRectF.top newRect) (QRectF.bottom newRect))
        (PageLayoutAdapter.sortCutters
           (map (fun cutter => PageLayoutAdapter.adaptCutter cutter newRect) cuttersList))
        (seq 1 k).

(** A cutter line that is vertical and lies on the left or on the right
    edge of the outline. *)
Definition collapsedOnto (c : QLineF.t) (outline : QRectF.t) : Prop :=
  QLineF.x1 c == QLineF.x2 c
  /\ (QLineF.x1 c == QRectF.left outline \/ QLineF.x1 c == QRectF.right outline).

(** Two cutter lines that start from the same point. *)
Definition sameFirstPoint (c1 c2 : QLineF.t) : Prop :=
  QLineF.x1 c1 == QLineF.x1 c2 /\ QLineF.y1 c1 == QLineF.y1 c2.

(** The three reasons the spec gives for a cut layout to fall back to an
    uncut one. *)
Definition degenerateCut (outline : QRectF.t) (c1 c2 : QLineF.t) : Prop :=
  (collapsedOnto c1 outline /\ collapsedOnto c2 outline)
  \/ crossesInside (QRectF.top outline) (QRectF.bottom outline) c1 c2
  \/ (fst (QLineF.intersects c1 c2) = QLineF.NoIntersection /\ sameFirstPoint c1 c2).

(** The type [correctPageLayoutType] leaves, read off the rounded outline
    and the rounded cutter lines. *)
Definition correctedType (ty : PageLayout.LayoutType) (outline : QRectF.t)
    (c1 c2 : QLineF.t) : PageLayout.LayoutType :=
  match ty with
  | PageLayout.SINGLE_PAGE_UNCUT => PageLayout.SINGLE_PAGE_UNCUT
  | PageLayout.SINGLE_PAGE_CUT =>
      if (PageLayoutAdapter.matchesBound c1 outline
          && PageLayoutAdapter.matchesBound c2 outline)
         || (negb (PageLayoutAdapter.isNo (fst (QLineF.intersects c1 c2)))
             && (Qltb (QRectF.top outline) (QPointF.y (snd (QLineF.intersects c1 c2)))
                 && Qltb (QPointF.y (snd (QLineF.intersects c1 c2))) (QRectF.bottom outline)))
         || (PageLayoutAdapter.isNo (fst (QLineF.intersects c1 c2))
             && QPointF.eqb (QLineF.pointAt c1 0) (QLineF.pointAt c2 0))
      then PageLayout.SINGLE_PAGE_UNCUT
      else PageLayout.SINGLE_PAGE_CUT
  | PageLayout.TWO_PAGES =>
      if PageLayoutAdapter.matchesBound c1 outline
      then PageLayout.SINGLE_PAGE_UNCUT
      else PageLayout.TWO_PAGES
  end.

(** Both ends of a cutter line are less than half a unit away from the left
    edge of the outline, or both from its right edge. *)
Definition nearEdge (c : QLineF.t) (outline : QRectF.t) : Prop :=
  (Qabs (QLineF.x1 c - QRectF.left outline) < 1 # 2
   /\ Qabs (QLineF.x2 c - QRectF.left outline) < 1 # 2)
  \/ (Qabs (QLineF.x1 c - QRectF.right outline) < 1 # 2
      /\ Qabs (QLineF.x2 c - QRectF.right outline) < 1 # 2).

(** A line that runs from the top border of a rectangle to its bottom
    border and stays between its left and right edge. *)
Definition fitted (rect : QRectF.t) (l : QLineF.t) : Prop :=
  QLineF.y1 l == QRectF.top rect /\ QLineF.y2 l == QRectF.bottom rect
  /\ QRectF.left rect <= QLineF.x1 l <= QRectF.right rect
  /\ QRectF.left rect <= QLineF.x2 l <= QRectF.right rect.

(** How many cutter lines a layout of a given type has. *)
Definition numCutters (ty : PageLayout.LayoutType) : nat :=
  match ty with
  | PageLayout.SINGLE_PAGE_UNCUT => 0
  | PageLayout.SINGLE_PAGE_CUT => 2
  | PageLayout.TWO_PAGES => 1
  end.

(** No two lines of the list start at the same [x]. *)
Definition distinctX1 (cs : list QLineF.t) : Prop :=
  NoDup (map (fun c => Qred (QLineF.x1 c)) cs).

(** * Properties *)

(** ** Comparisons *)

Lemma Qltb_lt (a b : Q) : Qltb a b = true <-> a < b.
Proof.
  unfold Qltb. rewrite Qlt_alt. destruct (a ?= b); split; congruence.
Qed.

Lemma Qltb_ge (a b : Q) : Qltb a b = false <-> b <= a.
Proof.
  split; intros H.
  - apply Qnot_lt_le. intros Hlt. apply Qltb_lt in Hlt. congruence.
  - destruct (Qltb a b) eqn:E; [|reflexivity].
    apply Qltb_lt in E. exfalso. exact (Qlt_not_le _ _ E H).
Qed.

Lemma Qeq_bool_false (a b : Q) : Qeq_bool a b = false <-> ~ a == b.
Proof.
  split; [apply Qeq_bool_neq|].
  intros H. destruct (Qeq_bool a b) eqn:E; [|reflexivity].
  apply Qeq_bool_iff in E. contradiction.
Qed.

Lemma Qle_bool_false (a b : Q) : Qle_bool a b = false <-> b < a.
Proof.
  split; intros H.
  - apply Qnot_le_lt. intros Hle. apply Qle_bool_iff in Hle. congruence.
  - destruct (Qle_bool a b) eqn:E; [|reflexivity].
    apply Qle_bool_iff in E. exfalso. exact (Qlt_not_le _ _ H E).
Qed.

(** Turns the boolean tests in the context into facts about [Q]. *)
Ltac reflect_tests :=
  repeat match goal with
  | H : _ && _ = true |- _ => apply andb_prop in H; destruct H
  | H : Qltb _ _ = true |- _ => apply Qltb_lt in H
  | H : Qltb _ _ = false |- _ => apply Qltb_ge in H
  | H : Qle_bool _ _ = true |- _ => apply Qle_bool_iff in H
  | H : Qle_bool _ _ = false |- _ => apply Qle_bool_false in H
  | H : Qeq_bool _ _ = true |- _ => apply Qeq_bool_iff in H
  | H : Qeq_bool _ _ = false |- _ => apply Qeq_bool_false in H
  end.

(** ** Intersections *)

Section Intersects.

Import QLineF.

Lemma intersects_none (l m : QLineF.t) :
  fst (intersects l m) = NoIntersection <-> denominator l m == 0.
Proof.
  unfold intersects, denominator, x1, x2, y1, y2. cbn [QPointF.sub QPointF.x QPointF.y].
  destruct (Qeq_bool _ 0) eqn:E.
  - apply Qeq_bool_iff in E. cbn [fst]. tauto.
  - apply Qeq_bool_false in E.
    repeat match goal with |- context [if ?b then _ else _] => destruct b end;
      cbn [fst]; split; (discriminate || contradiction).
Qed.

(** The crossing point, when there is one, does not depend on whether it
    is bounded. *)
Lemma intersects_point (l m : QLineF.t) :
  fst (intersects l m) <> NoIntersection ->
  snd (intersects l m) =
    QPointF.add (p1 l)
      (QPointF.scale (QPointF.sub (p2 l) (p1 l))
         (((y1 m - y2 m) * (x1 l - x1 m) - (x1 m - x2 m) * (y1 l - y1 m))
          * (1 / denominator l m))).
Proof.
  unfold intersects, denominator, x1, x2, y1, y2. cbn [QPointF.sub QPointF.x QPointF.y].
  destruct (Qeq_bool _ 0) eqn:E; [cbn [fst]; congruence|].
  intros _.
  repeat match goal with |- context [if ?b then _ else _] => destruct b end;
    reflexivity.
Qed.

End Intersects.

(** ** Projection of one line *)

Section AdaptCutter.

Import QLineF PageLayoutAdapter.

Lemma denominator_upperBorder (line : QLineF.t) (rect : QRectF.t) :
  denominator (upperBorder rect) line == - (QRectF.w rect * (y1 line - y2 line)).
Proof.
  unfold denominator, upperBorder, QRectF.topLeft, QRectF.topRight,
    QRectF.right, QRectF.left, QRectF.top, x1, x2, y1, y2.
  cbn [p1 p2 QPointF.x QPointF.y]. ring.
Qed.

Lemma denominator_lowerBorder (line : QLineF.t) (rect : QRectF.t) :
  denominator (lowerBorder rect) line == - (QRectF.w rect * (y1 line - y2 line)).
Proof.
  unfold denominator, lowerBorder, QRectF.bottomLeft, QRectF.bottomRight,
    QRectF.right, QRectF.left, QRectF.bottom, x1, x2, y1, y2.
  cbn [p1 p2 QPointF.x QPointF.y]. ring.
Qed.

(** A line that does not change height meets neither border. *)
Lemma level_line_misses_upper (line : QLineF.t) (rect : QRectF.t) :
  y1 line == y2 line -> fst (intersects (upperBorder rect) line) = NoIntersection.
Proof.
  intros H. apply intersects_none. rewrite denominator_upperBorder, H. ring.
Qed.

Lemma adaptCutter_unfold (line : QLineF.t) (rect : QRectF.t) :
  adaptCutter line rect =
    if negb (QRectF.isValid rect) || isNull line then line
    else if isNo (fst (intersects (upperBorder rect) line)) then line
    else if isNo (fst (intersects (lowerBorder rect) line)) then line
    else QLineF.mk
           (clampToRect (snd (intersects (upperBorder rect) line))
              (QRectF.left rect) (QRectF.right rect))
           (clampToRect (snd (intersects (lowerBorder rect) line))
              (QRectF.left rect) (QRectF.right rect)).
Proof.
  unfold adaptCutter.
  destruct (negb (QRectF.isValid rect) || isNull line); [reflexivity|].
  destruct (intersects (upperBorder rect) line) as [[] u];
    destruct (intersects (lowerBorder rect) line) as [[] d]; reflexivity.
Qed.

Lemma isNo_true (ty : IntersectionType) : isNo ty = true <-> ty = NoIntersection.
Proof. destruct ty; cbn; split; congruence. Qed.

Lemma isNo_false (ty : IntersectionType) : isNo ty = false <-> ty <> NoIntersection.
Proof. destruct ty; cbn; split; congruence. Qed.

(** The four ways out of [adaptCutter] that give the line back. *)
Lemma adaptCutter_identity (line : QLineF.t) (rect : QRectF.t) :
  QRectF.isValid rect = false
  \/ isNull line = true
  \/ fst (intersects (upperBorder rect) line) = NoIntersection
  \/ fst (intersects (lowerBorder rect) line) = NoIntersection ->
  adaptCutter line rect = line.
Proof.
  rewrite adaptCutter_unfold.
  intros [H | [H | [H | H]]].
  - rewrite H. reflexivity.
  - rewrite H, orb_true_r. reflexivity.
  - rewrite H. destruct (_ || _); reflexivity.
  - rewrite H. destruct (_ || _); [reflexivity|]. destruct (isNo _); reflexivity.
Qed.

(** The crossing with a border lies at the height of that border. *)
Lemma upper_intersection_y (line : QLineF.t) (rect : QRectF.t) :
  fst (intersects (upperBorder rect) line) <> NoIntersection ->
  QPointF.y (snd (intersects (upperBorder rect) line)) == QRectF.top rect.
Proof.
  intros H. rewrite (intersects_point _ _ H).
  unfold upperBorder, QRectF.topLeft, QRectF.topRight.
  cbn [p1 p2 QPointF.add QPointF.sub QPointF.scale QPointF.x QPointF.y]. ring.
Qed.

Lemma lower_intersection_y (line : QLineF.t) (rect : QRectF.t) :
  fst (intersects (lowerBorder rect) line) <> NoIntersection ->
  QPointF.y (snd (intersects (lowerBorder rect) line)) == QRectF.bottom rect.
Proof.
  intros H. rewrite (intersects_point _ _ H).
  unfold lowerBorder, QRectF.bottomLeft, QRectF.bottomRight.
  cbn [p1 p2 QPointF.add QPointF.sub QPointF.scale QPointF.x QPointF.y]. ring.
Qed.

Lemma clampToRect_y (p : QPointF.t) (lo hi : Q) :
  QPointF.y (clampToRect p lo hi) = QPointF.y p.
Proof.
  unfold clampToRect. destruct (Qltb _ lo); [reflexivity|].
  destruct (Qltb hi _); reflexivity.
Qed.

Lemma clampToRect_x (p : QPointF.t) (lo hi : Q) :
  lo <= hi -> QPointF.x (clampToRect p lo hi) == clampInto lo hi (QPointF.x p).
Proof.
  intros Hle. unfold clampToRect, clampInto.
  destruct (Qltb _ lo) eqn:E1; [|destruct (Qltb hi _) eqn:E2];
    reflect_tests; cbn [QPointF.setX QPointF.x].
  - rewrite (Q.min_l (QPointF.x p) hi) by lra. rewrite Q.max_l by lra. reflexivity.
  - rewrite (Q.min_r (QPointF.x p) hi) by lra. rewrite Q.max_r by lra. reflexivity.
  - rewrite (Q.min_l (QPointF.x p) hi) by lra. rewrite Q.max_r by lra. reflexivity.
Qed.

Lemma clampInto_bounds (lo hi v : Q) : lo <= hi -> lo <= clampInto lo hi v <= hi.
Proof.
  intros Hle. unfold clampInto. split.
  - apply Q.le_max_l.
  - apply Q.max_lub; [exact Hle | apply Q.le_min_r].
Qed.

Lemma isValid_spec (rect : QRectF.t) :
  QRectF.isValid rect = true <-> 0 < QRectF.w rect /\ 0 < QRectF.h rect.
Proof.
  unfold QRectF.isValid. rewrite andb_true_iff, !Qltb_lt. reflexivity.
Qed.

(** A null line meets no border. *)
Lemma null_line_misses_upper (line : QLineF.t) (rect : QRectF.t) :
  isNull line = true -> fst (intersects (upperBorder rect) line) = NoIntersection.
Proof.
  unfold isNull. intros H. reflect_tests. apply level_line_misses_upper. assumption.
Qed.

End AdaptCutter.

Section AdaptCutterClaims.

Import QLineF PageLayoutAdapter.

(** C6.  [adaptCutter] gives its input line back, as it is, whenever the
    rectangle is invalid, the line is null, or the crossing with the top or
    with the bottom border fails; a line parallel to the top border (one
    that keeps its height) is such a line.  The function is total: there is
    no error to raise, the line itself is the answer. *)
Theorem adaptCutter_fallback (line : QLineF.t) (rect : QRectF.t) :
  QRectF.isValid rect = false
  \/ isNull line = true
  \/ fst (intersects (upperBorder rect) line) = NoIntersection
  \/ fst (intersects (lowerBorder rect) line) = NoIntersection
  \/ y1 line == y2 line ->
  adaptCutter line rect = line.
Proof.
  intros [H | [H | [H | [H | H]]]]; apply adaptCutter_identity; auto.
  right; right; left. apply level_line_misses_upper. exact H.
Qed.

Lemma adaptCutter_fallback_witness :
  adaptCutter (QLineF.mk (QPointF.mk 10 50) (QPointF.mk 90 50)) (QRectF.mk 0 0 100 200)
  = QLineF.mk (QPointF.mk 10 50) (QPointF.mk 90 50).
Proof.
  apply adaptCutter_fallback. do 4 right. reflexivity.
Defined.

(** C5.  On a valid rectangle, when the crossings with both borders exist,
    [adaptCutter] answers the segment from the top crossing to the bottom
    crossing, each with its [x] clamped into [[left, right]]: the first end
    point lies on the top border, the second on the bottom border, and
    both between the left and the right edge.  When the right edge is at
    [100] and the top crossing at [x = 150], the first end point has
    [x = 100]. *)
Theorem adaptCutter_projects (line : QLineF.t) (rect : QRectF.t) :
  QRectF.isValid rect = true ->
  fst (intersects (upperBorder rect) line) <> NoIntersection ->
  fst (intersects (lowerBorder rect) line) <> NoIntersection ->
  let upperIntersection := snd (intersects (upperBorder rect) line) in
  let lowerIntersection := snd (intersects (lowerBorder rect) line) in
  let adapted := adaptCutter line rect in
  x1 adapted == clampInto (QRectF.left rect) (QRectF.right rect) (QPointF.x upperIntersection)
  /\ y1 adapted = QPointF.y upperIntersection
  /\ x2 adapted == clampInto (QRectF.left rect) (QRectF.right rect) (QPointF.x lowerIntersection)
  /\ y2 adapted = QPointF.y lowerIntersection
  /\ y1 adapted == QRectF.top rect
  /\ y2 adapted == QRectF.bottom rect
  /\ QRectF.left rect <= x1 adapted <= QRectF.right rect
  /\ QRectF.left rect <= x2 adapted <= QRectF.right rect
  /\ (QRectF.right rect == 100 -> QPointF.x upperIntersection == 150 -> x1 adapted == 100).
Proof.
  intros Hvalid Hu Hl upperIntersection lowerIntersection adapted.
  assert (Hnull : isNull line = false).
  { destruct (isNull line) eqn:E; [|reflexivity].
    exfalso. apply Hu. apply null_line_misses_upper. exact E. }
  assert (Hadapted : adapted =
    QLineF.mk (clampToRect upperIntersection (QRectF.left rect) (QRectF.right rect))
              (clampToRect lowerIntersection (QRectF.left rect) (QRectF.right rect))).
  { unfold adapted. rewrite adaptCutter_unfold, Hvalid, Hnull.
    apply isNo_false in Hu, Hl. rewrite Hu, Hl. reflexivity. }
  apply isValid_spec in Hvalid. destruct Hvalid as [Hw Hh].
  assert (Hle : QRectF.left rect <= QRectF.right rect).
  { unfold QRectF.left, QRectF.right. lra. }
  assert (Hx1 : x1 adapted ==
    clampInto (QRectF.left rect) (QRectF.right rect) (QPointF.x upperIntersection)).
  { rewrite Hadapted. unfold x1. cbn [p1]. apply clampToRect_x. exact Hle. }
  assert (Hx2 : x2 adapted ==
    clampInto (QRectF.left rect) (QRectF.right rect) (QPointF.x lowerIntersection)).
  { rewrite Hadapted. unfold x2. cbn [p2]. apply clampToRect_x. exact Hle. }
  assert (Hy1 : y1 adapted = QPointF.y upperIntersection).
  { rewrite Hadapted. unfold y1. cbn [p1]. apply clampToRect_y. }
  assert (Hy2 : y2 adapted = QPointF.y lowerIntersection).
  { rewrite Hadapted. unfold y2. cbn [p2]. apply clampToRect_y. }
  repeat split; try assumption.
  - rewrite Hy1. apply upper_intersection_y. exact Hu.
  - rewrite Hy2. apply lower_intersection_y. exact Hl.
  - rewrite Hx1. apply clampInto_bounds. exact Hle.
  - rewrite Hx1. apply clampInto_bounds. exact Hle.
  - rewrite Hx2. apply clampInto_bounds. exact Hle.
  - rewrite Hx2. apply clampInto_bounds. exact Hle.
  - intros Hr Hx. rewrite Hx1. unfold clampInto.
    rewrite Hx, Hr. rewrite (Q.min_r 150 100) by lra.
    rewrite Q.max_r by lra. reflexivity.
Qed.

End AdaptCutterClaims.

Lemma adaptCutter_projects_witness :
  QLineF.x1 (PageLayoutAdapter.adaptCutter
               (QLineF.mk (QPointF.mk 125 50) (QPointF.mk 50 200))
               (QRectF.mk 0 0 100 200)) == 100.
Proof.
  pose proof (adaptCutter_projects
                (QLineF.mk (QPointF.mk 125 50) (QPointF.mk 50 200))
                (QRectF.mk 0 0 100 200)) as H.
  cbv zeta in H.
  destruct H as (_ & _ & _ & _ & _ & _ & _ & _ & H).
  - vm_compute. reflexivity.
  - vm_compute. discriminate.
  - vm_compute. discriminate.
  - apply H; vm_compute; reflexivity.
Defined.

(** ** Several lines *)

Section AdaptCutters.

Import QLineF PageLayoutAdapter.

Lemma isAscendingByX1_spec (cs : list QLineF.t) :
  isAscendingByX1 cs = true <-> ascendingByX1 cs.
Proof.
  unfold ascendingByX1. induction cs as [|a [|b cs] IH].
  - split; [constructor | reflexivity].
  - split; [repeat constructor | reflexivity].
  - change (isAscendingByX1 (a :: b :: cs))
      with (Qle_bool (x1 a) (x1 b) && isAscendingByX1 (b :: cs)).
    rewrite andb_true_iff, Qle_bool_iff, IH. split.
    + intros [Hab Hs]. constructor; [exact Hs | constructor; exact Hab].
    + intros Hs. inversion Hs as [|? ? Hs' Hhd]; subst.
      inversion Hhd; subst. split; assumption.
Qed.

Lemma insertSorted_perm (c : QLineF.t) (cs : list QLineF.t) :
  Permutation (insertSorted c cs) (c :: cs).
Proof.
  induction cs as [|d cs IH]; cbn [insertSorted]; [reflexivity|].
  destruct (lessThan d c); [|reflexivity].
  rewrite IH. apply perm_swap.
Qed.

Lemma sortCutters_perm (cs : list QLineF.t) : Permutation (sortCutters cs) cs.
Proof.
  induction cs as [|c cs IH]; cbn [sortCutters]; [reflexivity|].
  rewrite insertSorted_perm, IH. reflexivity.
Qed.

Lemma insertSorted_hd (c a : QLineF.t) (cs : list QLineF.t) :
  x1 a <= x1 c ->
  HdRel (fun a b => x1 a <= x1 b) a cs ->
  HdRel (fun a b => x1 a <= x1 b) a (insertSorted c cs).
Proof.
  intros Hac Hhd. destruct cs as [|d cs]; cbn [insertSorted].
  - constructor. exact Hac.
  - destruct (lessThan d c); constructor; [|exact Hac].
    inversion Hhd; subst. assumption.
Qed.

Lemma insertSorted_ascending (c : QLineF.t) (cs : list QLineF.t) :
  ascendingByX1 cs -> ascendingByX1 (insertSorted c cs).
Proof.
  unfold ascendingByX1. induction cs as [|d cs IH]; intros Hs; cbn [insertSorted].
  - repeat constructor.
  - inversion Hs as [|? ? Hs' Hhd]; subst.
    destruct (lessThan d c) eqn:E; unfold lessThan in E; reflect_tests.
    + constructor; [apply IH; exact Hs'|].
      apply insertSorted_hd; [apply Qlt_le_weak; exact E | exact Hhd].
    + constructor; [exact Hs | constructor; exact E].
Qed.

Lemma sortCutters_ascending (cs : list QLineF.t) : ascendingByX1 (sortCutters cs).
Proof.
  induction cs as [|c cs IH]; cbn [sortCutters].
  - constructor.
  - apply insertSorted_ascending. exact IH.
Qed.

Lemma resolveAt_length (ub lb : Q) (cs : list QLineF.t) (i : nat) :
  length (resolveAt ub lb cs i) = length cs.
Proof.
  unfold resolveAt.
  destruct (cs !! (i - 1)%nat) as [cl|]; [|reflexivity].
  destruct (cs !! i) as [cr|]; [|reflexivity].
  destruct (intersects cl cr) as [[] p]; [reflexivity| |];
    (destruct (_ && _); [|reflexivity]);
    destruct (Qle_bool _ _); rewrite !length_insert; reflexivity.
Qed.

Lemma foldl_resolveAt_length (ub lb : Q) (idxs : list nat) (cs : list QLineF.t) :
  length (foldl (resolveAt ub lb) cs idxs) = length cs.
Proof.
  revert cs. induction idxs as [|i idxs IH]; intros cs; cbn [foldl]; [reflexivity|].
  rewrite IH. apply resolveAt_length.
Qed.

Lemma cuttersAfter_0 (lines : list QLineF.t) (rect : QRectF.t) :
  cuttersAfter 0 lines rect = sortCutters (map (fun c => adaptCutter c rect) lines).
Proof. reflexivity. Qed.

Lemma cuttersAfter_S (k : nat) (lines : list QLineF.t) (rect : QRectF.t) :
  cuttersAfter (S k) lines rect =
    resolveAt (QRectF.top rect) (QRectF.bottom rect) (cuttersAfter k lines rect) (S k).
Proof.
  unfold cuttersAfter. rewrite seq_S, foldl_app. reflexivity.
Qed.

Lemma cuttersAfter_length (k : nat) (lines : list QLineF.t) (rect : QRectF.t) :
  length (cuttersAfter k lines rect) = length lines.
Proof.
  unfold cuttersAfter. rewrite foldl_resolveAt_length.
  rewrite (Permutation_length (sortCutters_perm _)). apply length_map.
Qed.

Lemma adaptCutters_cuttersAfter (lines : list QLineF.t) (rect : QRectF.t) :
  adaptCutters lines rect = cuttersAfter (length lines - 1) lines rect.
Proof.
  unfold adaptCutters, cuttersAfter.
  rewrite (Permutation_length (sortCutters_perm _)), length_map. reflexivity.
Qed.

(** What one turn of the loop does to the vector. *)
Lemma resolveAt_cases (ub lb : Q) (cs : list QLineF.t) (k : nat) (cl cr : QLineF.t) :
  cs !! k = Some cl -> cs !! S k = Some cr ->
  let crossing := snd (intersects cl cr) in
  (~ crossesInside ub lb cl cr /\ resolveAt ub lb cs (S k) = cs)
  \/ (crossesInside ub lb cl cr
      /\ lb - QPointF.y crossing <= (lb - ub) / 2
      /\ resolveAt ub lb cs (S k) =
           <[S k := setP2 cr (QPointF.mk (QPointF.x crossing) lb)]>
             (<[k := setP2 cl (QPointF.mk (QPointF.x crossing) lb)]> cs))
  \/ (crossesInside ub lb cl cr
      /\ (lb - ub) / 2 < lb - QPointF.y crossing
      /\ resolveAt ub lb cs (S k) =
           <[S k := setP1 cr (QPointF.mk (QPointF.x crossing) ub)]>
             (<[k := setP1 cl (QPointF.mk (QPointF.x crossing) ub)]> cs)).
Proof.
  intros Hl Hr crossing. unfold resolveAt, crossesInside.
  replace (S k - 1)%nat with k by lia. rewrite Hl, Hr.
  subst crossing. destruct (intersects cl cr) as [ty p] eqn:Ei. cbn [fst snd].
  destruct ty.
  - left. split; [|reflexivity]. intros [Hno _]. apply Hno. reflexivity.
  - destruct (Qltb (QPointF.y p) lb && Qltb ub (QPointF.y p)) eqn:Ein.
    + reflect_tests. right.
      destruct (Qle_bool _ _) eqn:Ele; reflect_tests; [left | right];
        (split; [split; [discriminate | split; assumption] | split; [assumption | reflexivity]]).
    + left. split; [|reflexivity]. intros [_ [H1 H2]].
      apply Qltb_lt in H1, H2. rewrite H1, H2 in Ein. discriminate.
  - destruct (Qltb (QPointF.y p) lb && Qltb ub (QPointF.y p)) eqn:Ein.
    + reflect_tests. right.
      destruct (Qle_bool _ _) eqn:Ele; reflect_tests; [left | right];
        (split; [split; [discriminate | split; assumption] | split; [assumption | reflexivity]]).
    + left. split; [|reflexivity]. intros [_ [H1 H2]].
      apply Qltb_lt in H1, H2. rewrite H1, H2 in Ein. discriminate.
Qed.

End AdaptCutters.

Section AdaptCuttersClaims.

Import QLineF PageLayoutAdapter.

Lemma resolveAt_unchanged (ub lb : Q) (cs : list QLineF.t) (k : nat) :
  (forall cl cr, cs !! k = Some cl -> cs !! S k = Some cr -> ~ crossesInside ub lb cl cr) ->
  resolveAt ub lb cs (S k) = cs.
Proof.
  intros Hno.
  destruct (cs !! k) as [cl|] eqn:Hl; [destruct (cs !! S k) as [cr|] eqn:Hr|].
  - destruct (resolveAt_cases ub lb cs k cl cr Hl Hr) as [[_ H] | [[H _] | [H _]]];
      [exact H | |]; exfalso; exact (Hno cl cr eq_refl eq_refl H).
  - unfold resolveAt. replace (S k - 1)%nat with k by lia. rewrite Hl, Hr. reflexivity.
  - unfold resolveAt. replace (S k - 1)%nat with k by lia. rewrite Hl. reflexivity.
Qed.

Lemma sorted_pair (l1 l2 : QLineF.t) (rect : QRectF.t) :
  exists s1 s2, cuttersAfter 0 [l1; l2] rect = [s1; s2] /\ x1 s1 <= x1 s2.
Proof.
  pose proof (cuttersAfter_length 0 [l1; l2] rect) as Hlen.
  pose proof (sortCutters_ascending (map (fun c => adaptCutter c rect) [l1; l2])) as Hs.
  rewrite <- cuttersAfter_0 in Hs.
  destruct (cuttersAfter 0 [l1; l2] rect) as [|s1 [|s2 [|]]]; try discriminate.
  exists s1, s2. split; [reflexivity|].
  inversion Hs as [|? ? _ Hhd]; subst. inversion Hhd; subst. assumption.
Qed.

End AdaptCuttersClaims.

(** Settles a closed comparison, or a conjunction of such, by evaluation. *)
Ltac settle_evaluated :=
  lazymatch goal with
  | |- _ /\ _ => split; settle_evaluated
  | |- _ = _ => reflexivity
  | |- _ -> False => let H := fresh in intro H; discriminate H
  end.

Ltac by_evaluation := vm_compute; settle_evaluated.

Section AdaptCuttersOrder.

Import QLineF PageLayoutAdapter.

Lemma cuttersAfter_unchanged (lines : list QLineF.t) (rect : QRectF.t) :
  (forall k cl cr,
      cuttersAfter 0 lines rect !! k = Some cl ->
      cuttersAfter 0 lines rect !! S k = Some cr ->
      ~ crossesInside (QRectF.top rect) (QRectF.bottom rect) cl cr) ->
  forall k, cuttersAfter k lines rect = cuttersAfter 0 lines rect.
Proof.
  intros Hno k. induction k as [|k IH]; [reflexivity|].
  rewrite cuttersAfter_S, IH. apply resolveAt_unchanged. apply Hno.
Qed.

(** The three shapes of the result on two lines. *)
Lemma adaptCutters_pair (l1 l2 : QLineF.t) (rect : QRectF.t) (s1 s2 : QLineF.t) :
  cuttersAfter 0 [l1; l2] rect = [s1; s2] ->
  let ub := QRectF.top rect in
  let lb := QRectF.bottom rect in
  let crossing := snd (intersects s1 s2) in
  (~ crossesInside ub lb s1 s2 /\ adaptCutters [l1; l2] rect = [s1; s2])
  \/ (crossesInside ub lb s1 s2
      /\ adaptCutters [l1; l2] rect =
           [setP2 s1 (QPointF.mk (QPointF.x crossing) lb);
            setP2 s2 (QPointF.mk (QPointF.x crossing) lb)])
  \/ (crossesInside ub lb s1 s2
      /\ adaptCutters [l1; l2] rect =
           [setP1 s1 (QPointF.mk (QPointF.x crossing) ub);
            setP1 s2 (QPointF.mk (QPointF.x crossing) ub)]).
Proof.
  intros Hs ub lb crossing.
  rewrite adaptCutters_cuttersAfter. cbn [length Nat.sub].
  rewrite cuttersAfter_S, Hs.
  destruct (resolveAt_cases ub lb [s1; s2] 0 s1 s2 eq_refl eq_refl)
    as [[H1 H2] | [(H1 & _ & H2) | (H1 & _ & H2)]].
  - left. split; assumption.
  - right; left. split; [exact H1 | exact H2].
  - right; right. split; [exact H1 | exact H2].
Qed.

(** C8, as the program has it.  [adaptCutters] projects each line on its
    own with [adaptCutter], and the vector it then sorts is a rearrangement
    of these projections in ascending order of the [x] of the first end
    point; the loop runs on that vector, and what is returned has as many
    lines as the input.  The returned vector is the sorted one when no two
    neighbours cross inside the rectangle, and it is itself in ascending
    order when the input has at most two lines. *)
Theorem adaptCutters_sorts (lines : list QLineF.t) (rect : QRectF.t) :
  let projected := map (fun cutter => adaptCutter cutter rect) lines in
  let sorted := cuttersAfter 0 lines rect in
  Permutation sorted projected
  /\ ascendingByX1 sorted
  /\ adaptCutters lines rect =
       foldl (resolveAt (QRectF.top rect) (QRectF.bottom rect)) sorted
             (seq 1 (length sorted - 1))
  /\ length (adaptCutters lines rect) = length lines
  /\ ((forall k cl cr,
          sorted !! k = Some cl -> sorted !! S k = Some cr ->
          ~ crossesInside (QRectF.top rect) (QRectF.bottom rect) cl cr) ->
      adaptCutters lines rect = sorted)
  /\ ((length lines <= 2)%nat -> ascendingByX1 (adaptCutters lines rect)).
Proof.
  intros projected sorted.
  split; [apply sortCutters_perm|].
  split; [apply sortCutters_ascending|].
  split; [reflexivity|].
  split; [rewrite adaptCutters_cuttersAfter; apply cuttersAfter_length|].
  split.
  - intros Hno. rewrite adaptCutters_cuttersAfter.
    apply cuttersAfter_unchanged. exact Hno.
  - intros Hlen.
    destruct lines as [|l1 [|l2 [|l3 lines]]]; cbn [length] in Hlen; [| | |lia].
    + constructor.
    + rewrite adaptCutters_cuttersAfter. cbn [length Nat.sub].
      apply sortCutters_ascending.
    + destruct (sorted_pair l1 l2 rect) as (s1 & s2 & Hs & Hle).
      destruct (adaptCutters_pair l1 l2 rect s1 s2 Hs) as [[_ H] | [[_ H] | [_ H]]];
        rewrite H; repeat constructor; unfold x1; cbn [setP1 setP2 p1 QPointF.x].
      * exact Hle.
      * exact Hle.
      * apply Qle_refl.
Qed.

Lemma adaptCutters_sorts_witness :
  ascendingByX1
    (adaptCutters [QLineF.ofCoords 40 0 90 100; QLineF.ofCoords 0 0 100 100]
                  (QRectF.mk 0 0 100 100)).
Proof.
  apply (adaptCutters_sorts [QLineF.ofCoords 40 0 90 100; QLineF.ofCoords 0 0 100 100]
                            (QRectF.mk 0 0 100 100)).
  cbn [length]. lia.
Defined.

(** C8 fails as it is written: with three lines the loop may move first end
    points after the sort.  Here the lines at positions 1 and 2 cross in the
    upper half, both first end points move to [x = 55/6], left of the first
    end point [x = 19/2] of the line at position 0. *)
Lemma adaptCutters_result_not_ascending :
  let rect := QRectF.mk 0 0 100 100 in
  let lines := [QLineF.ofCoords 10 0 5 100; QLineF.ofCoords (19 # 2) 0 4 100;
                QLineF.ofCoords 11 0 0 100] in
  QRectF.isValid rect = true
  /\ ~ ascendingByX1 (adaptCutters lines rect)
  /\ exists o0 o1 o2,
       adaptCutters lines rect = [o0; o1; o2]
       /\ x1 o0 == 19 # 2 /\ x1 o1 == 55 # 6 /\ x1 o1 < x1 o0.
Proof.
  intros rect lines. split; [reflexivity|]. split.
  - rewrite <- isAscendingByX1_spec. by_evaluation.
  - eexists _, _, _. split; [vm_compute; reflexivity|].
    repeat split; by_evaluation.
Qed.

End AdaptCuttersOrder.

(** ** Rounding *)

(** Linear arithmetic over [Q] with the integers that occur taken as
    unknowns. *)
Ltac lra_Z :=
  change (inject_Z 1) with 1 in *;
  repeat match goal with
  | |- context [inject_Z ?n] =>
      let z := fresh "z" in set (z := inject_Z n) in *; clearbody z
  | H : context [inject_Z ?n] |- _ =>
      let z := fresh "z" in set (z := inject_Z n) in *; clearbody z
  end;
  lra.

Section Rounding.

Lemma Qfloor_unique (q : Q) (n : Z) :
  inject_Z n <= q -> q < inject_Z n + 1 -> Qfloor q = n.
Proof.
  intros Hlo Hhi. apply Z.le_antisymm.
  - apply Z.lt_succ_r. rewrite Zlt_Qlt.
    apply Qle_lt_trans with q; [apply Qfloor_le|].
    unfold Z.succ. rewrite inject_Z_plus. exact Hhi.
  - rewrite <- (Qfloor_Z n). apply Qfloor_resp_le. exact Hlo.
Qed.

(** In exact arithmetic the formula of [qRound] is rounding half up. *)
Lemma qRound_floor (d : Q) : qRound d = Qfloor (d + (1 # 2)).
Proof.
  unfold qRound, truncate. destruct (Qle_bool 0 d) eqn:E0; reflect_tests.
  - destruct (Qle_bool 0 (d + (1 # 2))) eqn:E1; [reflexivity|].
    reflect_tests. exfalso. lra.
  - assert (E1 : Qle_bool 0 (d - 1) = false) by (apply Qle_bool_false; lra).
    rewrite E1.
    pose proof (Qceiling_lt (d - 1)) as Hk. pose proof (Qle_ceiling (d - 1)) as Hk'.
    set (k := Qceiling (d - 1)) in *.
    assert (Hk1 : inject_Z k - 1 < d - 1).
    { unfold Z.sub in Hk. rewrite inject_Z_plus in Hk. exact Hk. }
    assert (E2 : Qle_bool 0 (d - inject_Z k + (1 # 2)) = true).
    { apply Qle_bool_iff. lra_Z. }
    rewrite E2.
    pose proof (Qfloor_le (d + (1 # 2))) as Hf. pose proof (Qlt_floor (d + (1 # 2))) as Hf'.
    set (f := Qfloor (d + (1 # 2))) in *.
    rewrite inject_Z_plus in Hf'.
    rewrite (Qfloor_unique (d - inject_Z k + (1 # 2)) (f - k)); [lia | |];
      unfold Z.sub; rewrite inject_Z_plus, inject_Z_opp; lra_Z.
Qed.

Lemma qRound_comp (a b : Q) : a == b -> qRound a = qRound b.
Proof. intros Hab. rewrite !qRound_floor, Hab. reflexivity. Qed.

Lemma qRound_inject_Z (n : Z) : qRound (inject_Z n) = n.
Proof. rewrite qRound_floor. apply Qfloor_unique; lra_Z. Qed.

(** A coordinate within half a unit of an integer rounds to it. *)
Lemma qRound_near (d : Q) (n : Z) : Qabs (d - inject_Z n) < 1 # 2 -> qRound d = n.
Proof.
  intros H. apply Qabs_Qlt_condition in H. destruct H as [Hlo Hhi].
  rewrite qRound_floor. apply Qfloor_unique; lra_Z.
Qed.

End Rounding.

(** ** Correction of the layout type *)

Section CorrectType.

Import QLineF PageLayout PageLayoutAdapter.

Lemma correctPageLayoutType_eq (layout : PageLayout.t) :
  correctPageLayoutType layout =
    PageLayout.mk (uncutOutline layout)
      (correctedType (type layout) (QRectF.toRect (boundingRect layout))
         (toLine (cutterLine layout 0)) (toLine (cutterLine layout 1)))
      (cutterLines layout).
Proof.
  destruct layout as [outline ty cs]. unfold correctPageLayoutType, correctedType.
  cbn [type uncutOutline cutterLines]. destruct ty.
  - reflexivity.
  - set (c1 := toLine _). set (c2 := toLine _). set (o := QRectF.toRect _).
    destruct (intersects c1 c2) as [ity p]. cbn [fst snd].
    destruct (matchesBound c1 o && matchesBound c2 o);
      cbn [setType type uncutOutline cutterLines orb];
      destruct (_ || _); reflexivity.
  - set (c1 := toLine _). set (o := QRectF.toRect _).
    destruct (matchesBound c1 o); reflexivity.
Qed.

Lemma matchesBound_spec (c : QLineF.t) (outline : QRectF.t) :
  matchesBound c outline = true <-> collapsedOnto c outline.
Proof.
  unfold matchesBound, collapsedOnto.
  rewrite andb_true_iff, orb_true_iff, !Qeq_bool_iff. reflexivity.
Qed.

Lemma sameFirstPoint_spec (c1 c2 : QLineF.t) :
  QPointF.eqb (pointAt c1 0) (pointAt c2 0) = true <-> sameFirstPoint c1 c2.
Proof.
  unfold QPointF.eqb, pointAt, sameFirstPoint. cbn [QPointF.x QPointF.y].
  rewrite andb_true_iff, !Qeq_bool_iff.
  assert (H : forall a b : Q, a + (b - a) * 0 == a) by (intros; ring).
  rewrite !H. reflexivity.
Qed.

Lemma correctedType_two_pages (outline : QRectF.t) (c1 c2 : QLineF.t) :
  (collapsedOnto c1 outline ->
   correctedType TWO_PAGES outline c1 c2 = SINGLE_PAGE_UNCUT)
  /\ (~ collapsedOnto c1 outline ->
      correctedType TWO_PAGES outline c1 c2 = TWO_PAGES).
Proof.
  unfold correctedType. destruct (matchesBound c1 outline) eqn:E.
  - split; [reflexivity|]. intros H. exfalso. apply H, matchesBound_spec, E.
  - split; [|reflexivity]. intros H. apply matchesBound_spec in H. congruence.
Qed.

(** The edges of the rounded outline and the ends of a rounded line. *)
Lemma toRect_left (r : QRectF.t) :
  QRectF.left (QRectF.toRect r) = inject_Z (qRound (QRectF.left r)).
Proof. reflexivity. Qed.

Lemma toRect_right (r : QRectF.t) :
  QRectF.right (QRectF.toRect r) == inject_Z (qRound (QRectF.right r)).
Proof.
  unfold QRectF.right, QRectF.toRect. cbn [QRectF.xp QRectF.w].
  unfold Z.sub. rewrite inject_Z_plus, inject_Z_opp. ring.
Qed.

Lemma toLine_x1 (c : QLineF.t) : x1 (toLine c) = inject_Z (qRound (x1 c)).
Proof. reflexivity. Qed.

Lemma toLine_x2 (c : QLineF.t) : x2 (toLine c) = inject_Z (qRound (x2 c)).
Proof. reflexivity. Qed.

End CorrectType.

Section LayoutClaims.

Import QLineF PageLayout PageLayoutAdapter.

Lemma type_corrected (layout : PageLayout.t) :
  type (correctPageLayoutType layout) =
    correctedType (type layout) (QRectF.toRect (boundingRect layout))
      (toLine (cutterLine layout 0)) (toLine (cutterLine layout 1)).
Proof. rewrite correctPageLayoutType_eq. reflexivity. Qed.

Lemma QRectF_eqb_refl (r : QRectF.t) : QRectF.eqb r r = true.
Proof.
  unfold QRectF.eqb. rewrite !andb_true_iff, !Qeq_bool_iff.
  repeat split; reflexivity.
Qed.

Lemma adaptPageLayout_unchanged (pageLayout : PageLayout.t) (outline : QRectF.t) :
  QRectF.eqb (boundingRect pageLayout) outline = true ->
  adaptPageLayout pageLayout outline = pageLayout.
Proof. intros H. unfold adaptPageLayout. rewrite H. reflexivity. Qed.

(** C4, on the rounded copies.  For a layout of type [TWO_PAGES], with
    [outline] the rounded outline and [c1] the rounded cutter line,
    [correctPageLayoutType] leaves the type [SINGLE_PAGE_UNCUT] exactly
    when [c1] is vertical on the left or right edge of [outline], and
    [TWO_PAGES] otherwise.  End to end: the [TWO_PAGES] layout with cutter
    line (150,0)-(150,300), adapted from the outline {0,0,200,300} to the
    outline {0,0,100,300}, has its line at [x = 100] from top to bottom and
    the type [SINGLE_PAGE_UNCUT]. *)
Theorem correctPageLayoutType_two_pages :
  (forall layout : PageLayout.t,
      type layout = TWO_PAGES ->
      let outline := QRectF.toRect (boundingRect layout) in
      let c1 := toLine (cutterLine layout 0) in
      let corrected := correctPageLayoutType layout in
      (collapsedOnto c1 outline -> type corrected = SINGLE_PAGE_UNCUT)
      /\ (~ collapsedOnto c1 outline -> type corrected = TWO_PAGES))
  /\ (let adapted :=
        adaptPageLayout
          (ofSplitLine (QRectF.mk 0 0 200 300) (QLineF.ofCoords 150 0 150 300))
          (QRectF.mk 0 0 100 300) in
      type adapted = SINGLE_PAGE_UNCUT
      /\ uncutOutline adapted = QRectF.mk 0 0 100 300
      /\ cutterLines adapted =
           [adaptCutter (QLineF.ofCoords 150 0 150 300) (QRectF.mk 0 0 100 300)]
      /\ x1 (cutterLine adapted 0) == 100 /\ y1 (cutterLine adapted 0) == 0
      /\ x2 (cutterLine adapted 0) == 100 /\ y2 (cutterLine adapted 0) == 300).
Proof.
  split.
  - intros layout Hty outline c1 corrected.
    assert (Hc : type corrected =
                 correctedType TWO_PAGES outline c1 (toLine (cutterLine layout 1))).
    { unfold corrected. rewrite type_corrected, Hty. reflexivity. }
    rewrite Hc. apply correctedType_two_pages.
  - intros adapted. repeat split; by_evaluation.
Qed.

Lemma correctPageLayoutType_two_pages_witness :
  type (correctPageLayoutType
          (ofSplitLine (QRectF.mk 0 0 100 300) (QLineF.ofCoords 100 0 100 300)))
  = SINGLE_PAGE_UNCUT.
Proof.
  refine (proj1 (proj1 correctPageLayoutType_two_pages
                   (ofSplitLine (QRectF.mk 0 0 100 300) (QLineF.ofCoords 100 0 100 300))
                   eq_refl) _).
  split; [by_evaluation | right; by_evaluation].
Defined.

(** C4 fails as it is written, on the line of the layout itself.  The
    cutter line below is not vertical, and yet the type becomes
    [SINGLE_PAGE_UNCUT]: rounded, the line is the left edge. *)
Lemma correctPageLayoutType_two_pages_decides_on_rounded :
  let layout :=
    ofSplitLine (QRectF.mk 0 0 100 100) (QLineF.ofCoords (1 # 4) 0 0 100) in
  type layout = TWO_PAGES
  /\ ~ collapsedOnto (cutterLine layout 0) (boundingRect layout)
  /\ type (correctPageLayoutType layout) = SINGLE_PAGE_UNCUT.
Proof.
  intros layout. split; [reflexivity|]. split; [|reflexivity].
  intros [H _]; revert H; by_evaluation.
Qed.

(** C7.  [adaptPageLayout], given a layout and an outline equal to the
    bounding rectangle of the outline the layout has, returns the layout
    as it is; so adapting a layout to its own outline changes nothing. *)
Theorem adaptPageLayout_same_outline (pageLayout : PageLayout.t) (outline : QRectF.t) :
  (QRectF.eqb (boundingRect pageLayout) outline = true ->
   adaptPageLayout pageLayout outline = pageLayout)
  /\ adaptPageLayout pageLayout (boundingRect pageLayout) = pageLayout.
Proof.
  split.
  - apply adaptPageLayout_unchanged.
  - apply adaptPageLayout_unchanged. apply QRectF_eqb_refl.
Qed.

Lemma adaptPageLayout_same_outline_witness :
  let pageLayout :=
    ofSplitLine (QRectF.mk 0 0 200 300) (QLineF.ofCoords 150 0 150 300) in
  adaptPageLayout pageLayout (QRectF.mk 0 0 (400 # 2) 300) = pageLayout.
Proof.
  intros pageLayout.
  apply (proj1 (adaptPageLayout_same_outline pageLayout (QRectF.mk 0 0 (400 # 2) 300))).
  reflexivity.
Defined.

(** C9.  [correctPageLayoutType] either keeps the type or makes it
    [SINGLE_PAGE_UNCUT]: an uncut layout stays uncut, a cut layout never
    becomes a two-page one, and a two-page layout never becomes a cut
    one. *)
Theorem correctPageLayoutType_only_degrades (layout : PageLayout.t) :
  let corrected := correctPageLayoutType layout in
  (type corrected = type layout \/ type corrected = SINGLE_PAGE_UNCUT)
  /\ (type layout = SINGLE_PAGE_UNCUT -> type corrected = SINGLE_PAGE_UNCUT)
  /\ (type layout = SINGLE_PAGE_CUT -> type corrected <> TWO_PAGES)
  /\ (type layout = TWO_PAGES -> type corrected <> SINGLE_PAGE_CUT).
Proof.
  intros corrected. unfold corrected. rewrite type_corrected.
  unfold correctedType. destruct (type layout).
  - repeat split; try (left; reflexivity); congruence.
  - destruct (_ || _ || _); repeat split; try (left; reflexivity);
      try (right; reflexivity); congruence.
  - destruct (matchesBound _ _); repeat split; try (left; reflexivity);
      try (right; reflexivity); congruence.
Qed.

Lemma correctPageLayoutType_only_degrades_witness :
  type (correctPageLayoutType (ofRect (QRectF.mk 0 0 100 100))) = SINGLE_PAGE_UNCUT.
Proof.
  apply (correctPageLayoutType_only_degrades (ofRect (QRectF.mk 0 0 100 100))).
  reflexivity.
Defined.

End LayoutClaims.

Section RoundedCopies.

Import QLineF PageLayout PageLayoutAdapter.

Lemma toLine_cutterLine (layout : PageLayout.t) (idx : nat) :
  toLine (cutterLine layout idx) =
    nth idx (map toLine (cutterLines layout)) (toLine QLineF.null).
Proof. unfold cutterLine. symmetry. apply map_nth. Qed.

(** Both ends of a line near an edge of the rounded outline round onto
    that edge. *)
Lemma nearEdge_collapsed (c : QLineF.t) (r : QRectF.t) :
  nearEdge c (QRectF.toRect r) -> collapsedOnto (toLine c) (QRectF.toRect r).
Proof.
  unfold nearEdge, collapsedOnto. rewrite toLine_x1, toLine_x2, toRect_left.
  intros [[H1 H2] | [H1 H2]].
  - rewrite (qRound_near _ _ H1), (qRound_near _ _ H2).
    split; [reflexivity | left; reflexivity].
  - rewrite toRect_right in H1, H2.
    rewrite (qRound_near _ _ H1), (qRound_near _ _ H2).
    split; [reflexivity | right; symmetry; apply toRect_right].
Qed.

(** C10.  [correctPageLayoutType] changes nothing but the type: the outline
    and the cutter lines of the layout stay as they were, unrounded.  The
    type it leaves is read off the rounded outline and the rounded cutter
    lines alone, so that two layouts of the same type that agree on these
    get the same type.  With [outline] the rounded outline, as at line 98,
    a cutter line whose two ends are less than half a unit away from the
    left edge of [outline], or both from its right edge, is after rounding
    a vertical line on that edge; a two-page layout with such a line, and a
    cut layout with two such lines, become [SINGLE_PAGE_UNCUT]. *)
Theorem correctPageLayoutType_rounds (layout : PageLayout.t) :
  let outline := QRectF.toRect (boundingRect layout) in
  let corrected := correctPageLayoutType layout in
  uncutOutline corrected = uncutOutline layout
  /\ cutterLines corrected = cutterLines layout
  /\ type corrected =
       correctedType (type layout) outline
         (toLine (cutterLine layout 0)) (toLine (cutterLine layout 1))
  /\ (forall layout' : PageLayout.t,
         type layout' = type layout ->
         QRectF.toRect (boundingRect layout') = outline ->
         map toLine (cutterLines layout') = map toLine (cutterLines layout) ->
         type (correctPageLayoutType layout') = type corrected)
  /\ (forall c : QLineF.t, nearEdge c outline -> collapsedOnto (toLine c) outline)
  /\ (type layout = TWO_PAGES ->
      nearEdge (cutterLine layout 0) outline ->
      type corrected = SINGLE_PAGE_UNCUT)
  /\ (type layout = SINGLE_PAGE_CUT ->
      nearEdge (cutterLine layout 0) outline ->
      nearEdge (cutterLine layout 1) outline ->
      type corrected = SINGLE_PAGE_UNCUT).
Proof.
  intros outline corrected. unfold corrected, outline.
  split; [rewrite correctPageLayoutType_eq; reflexivity|].
  split; [rewrite correctPageLayoutType_eq; reflexivity|].
  split; [apply type_corrected|].
  split; [|split; [|split]].
  - intros layout' Hty Ho Hcs.
    rewrite !type_corrected, !toLine_cutterLine, Hty, Ho, Hcs. reflexivity.
  - intros c. apply nearEdge_collapsed.
  - intros Hty Hnear. rewrite type_corrected, Hty.
    apply correctedType_two_pages. apply nearEdge_collapsed. exact Hnear.
  - intros Hty Hn1 Hn2. rewrite type_corrected, Hty. unfold correctedType.
    apply nearEdge_collapsed, matchesBound_spec in Hn1.
    apply nearEdge_collapsed, matchesBound_spec in Hn2.
    rewrite Hn1, Hn2. reflexivity.
Qed.

Lemma correctPageLayoutType_rounds_witness :
  let near := ofSplitLine (QRectF.mk (85 # 8) 0 100 300)
                (QLineF.ofCoords (87 # 8) 0 (45 # 4) 300) in
  let cut := ofCutters (QRectF.mk (85 # 8) 0 100 300)
               (QLineF.ofCoords (87 # 8) 0 (45 # 4) 300)
               (QLineF.ofCoords (443 # 4) 0 (445 # 4) 300) in
  type (correctPageLayoutType near) = SINGLE_PAGE_UNCUT
  /\ type (correctPageLayoutType cut) = SINGLE_PAGE_UNCUT.
Proof.
  intros near cut. split.
  - refine (proj1 (proj2 (proj2 (proj2 (proj2 (proj2
              (correctPageLayoutType_rounds near)))))) eq_refl _).
    left. split; by_evaluation.
  - refine (proj2 (proj2 (proj2 (proj2 (proj2 (proj2
              (correctPageLayoutType_rounds cut)))))) eq_refl _ _).
    + left. split; by_evaluation.
    + right. split; by_evaluation.
Defined.

End RoundedCopies.

(** * Properties of the adapter as it computes *)

(** ** With exact operations it is the adapter above *)

Section ExactArith.

Lemma exact_intersects (l m : QLineF.t) :
  Computed.intersects exactArith l m = QLineF.intersects l m.
Proof. reflexivity. Qed.

Lemma exact_pointAt (l : QLineF.t) (c : Q) :
  Computed.pointAt exactArith l c = QLineF.pointAt l c.
Proof. reflexivity. Qed.

Lemma exact_matchesBound (cutterLine : QLineF.t) (outline : QRectF.t) :
  Computed.matchesBound exactArith cutterLine outline
  = PageLayoutAdapter.matchesBound cutterLine outline.
Proof. reflexivity. Qed.

Lemma exact_correctPageLayoutType (layout : PageLayout.t) :
  Computed.correctPageLayoutType exactArith layout
  = PageLayoutAdapter.correctPageLayoutType layout.
Proof.
  unfold Computed.correctPageLayoutType, PageLayoutAdapter.correctPageLayoutType.
  cbv zeta.
  set (c1 := toLine (PageLayout.cutterLine layout 0)).
  set (c2 := toLine (PageLayout.cutterLine layout 1)).
  set (outline := QRectF.toRect (PageLayout.boundingRect layout)).
  rewrite (exact_matchesBound c1 outline), (exact_matchesBound c2 outline),
    (exact_pointAt c1 0), (exact_pointAt c2 0), (exact_intersects c1 c2).
  reflexivity.
Qed.

Lemma exact_adaptCutter (cutterLine : QLineF.t) (newRect : QRectF.t) :
  Computed.adaptCutter exactArith cutterLine newRect
  = PageLayoutAdapter.adaptCutter cutterLine newRect.
Proof. reflexivity. Qed.

Lemma exact_adaptCutters (cuttersList : list QLineF.t) (newRect : QRectF.t) :
  Computed.adaptCutters exactArith cuttersList newRect
  = PageLayoutAdapter.adaptCutters cuttersList newRect.
Proof. reflexivity. Qed.

Lemma exact_adaptPageLayout (pageLayout : PageLayout.t) (outline : QRectF.t) :
  Computed.adaptPageLayout exactArith pageLayout outline
  = PageLayoutAdapter.adaptPageLayout pageLayout outline.
Proof.
  unfold Computed.adaptPageLayout, PageLayoutAdapter.adaptPageLayout.
  destruct (QRectF.eqb _ _); [reflexivity|].
  destruct (PageLayout.type pageLayout); [reflexivity| |].
  - cbv zeta. rewrite exact_adaptCutters. apply exact_correctPageLayoutType.
  - cbv zeta. rewrite exact_adaptCutter. apply exact_correctPageLayoutType.
Qed.

End ExactArith.

(** ** The loop of [adaptCutters], whatever the arithmetic *)

Section ComputedLoop.

Import QLineF.

Variable A : Arith.

Lemma computed_resolveAt_length (ub lb : Q) (cs : list QLineF.t) (i : nat) :
  length (Computed.resolveAt A ub lb cs i) = length cs.
Proof.
  unfold Computed.resolveAt.
  destruct (cs !! (i - 1)%nat) as [cl|]; [|reflexivity].
  destruct (cs !! i) as [cr|]; [|reflexivity].
  destruct (Computed.intersects A cl cr) as [[] p]; [reflexivity| |];
    (destruct (_ && _); [|reflexivity]);
    destruct (Qle_bool _ _); rewrite !length_insert; reflexivity.
Qed.

Lemma computed_cuttersAfter_S (k : nat) (lines : list QLineF.t) (rect : QRectF.t) :
  Computed.cuttersAfter A (S k) lines rect =
    Computed.resolveAt A (QRectF.top rect) (Computed.bottom A rect)
      (Computed.cuttersAfter A k lines rect) (S k).
Proof.
  unfold Computed.cuttersAfter. rewrite seq_S, foldl_app. reflexivity.
Qed.

Lemma computed_cuttersAfter_length (k : nat) (lines : list QLineF.t) (rect : QRectF.t) :
  length (Computed.cuttersAfter A k lines rect) = length lines.
Proof.
  induction k as [|k IH].
  - unfold Computed.cuttersAfter. cbn [seq foldl].
    rewrite (Permutation_length (sortCutters_perm _)). apply length_map.
  - rewrite computed_cuttersAfter_S, computed_resolveAt_length. exact IH.
Qed.

Lemma computed_adaptCutters_cuttersAfter (lines : list QLineF.t) (rect : QRectF.t) :
  Computed.adaptCutters A lines rect
  = Computed.cuttersAfter A (length lines - 1) lines rect.
Proof.
  unfold Computed.adaptCutters, Computed.cuttersAfter.
  rewrite (Permutation_length (sortCutters_perm _)), length_map. reflexivity.
Qed.

(** What one turn of the loop does to the vector. *)
Lemma computed_resolveAt_cases (ub lb : Q) (cs : list QLineF.t) (k : nat)
    (cl cr : QLineF.t) :
  cs !! k = Some cl -> cs !! S k = Some cr ->
  let crossing := snd (Computed.intersects A cl cr) in
  (~ Computed.crossesInside A ub lb cl cr /\ Computed.resolveAt A ub lb cs (S k) = cs)
  \/ (Computed.crossesInside A ub lb cl cr
      /\ a_sub A lb (QPointF.y crossing) <= a_div A (a_sub A lb ub) 2
      /\ Computed.resolveAt A ub lb cs (S k) =
           <[S k := QLineF.mk (p1 cr) (QPointF.mk (QPointF.x crossing) lb)]>
             (<[k := QLineF.mk (p1 cl) (QPointF.mk (QPointF.x crossing) lb)]> cs))
  \/ (Computed.crossesInside A ub lb cl cr
      /\ a_div A (a_sub A lb ub) 2 < a_sub A lb (QPointF.y crossing)
      /\ Computed.resolveAt A ub lb cs (S k) =
           <[S k := QLineF.mk (QPointF.mk (QPointF.x crossing) ub) (p2 cr)]>
             (<[k := QLineF.mk (QPointF.mk (QPointF.x crossing) ub) (p2 cl)]> cs)).
Proof.
  intros Hl Hr crossing. unfold Computed.resolveAt, Computed.crossesInside.
  replace (S k - 1)%nat with k by lia. rewrite Hl, Hr.
  subst crossing. destruct (Computed.intersects A cl cr) as [ty p] eqn:Ei. cbn [fst snd].
  destruct ty.
  - left. split; [|reflexivity]. intros [Hno _]. apply Hno. reflexivity.
  - destruct (Qltb (QPointF.y p) lb && Qltb ub (QPointF.y p)) eqn:Ein.
    + reflect_tests. right.
      destruct (Qle_bool _ _) eqn:Ele; reflect_tests; [left | right];
        (split; [split; [discriminate | split; assumption] | split; [assumption | reflexivity]]).
    + left. split; [|reflexivity]. intros [_ [H1 H2]].
      apply Qltb_lt in H1, H2. rewrite H1, H2 in Ein. discriminate.
  - destruct (Qltb (QPointF.y p) lb && Qltb ub (QPointF.y p)) eqn:Ein.
    + reflect_tests. right.
      destruct (Qle_bool _ _) eqn:Ele; reflect_tests; [left | right];
        (split; [split; [discriminate | split; assumption] | split; [assumption | reflexivity]]).
    + left. split; [|reflexivity]. intros [_ [H1 H2]].
      apply Qltb_lt in H1, H2. rewrite H1, H2 in Ein. discriminate.
Qed.

End ComputedLoop.

Section ComputedLoopClaims.

Import QLineF.

(** C2, on the crossing as the program computes it.  Whatever the
    arithmetic, when the lines [cl] and [cr] at [k] and [k + 1] of the
    vector have a computed crossing whose [y] is strictly between the top
    and the bottom of the rectangle, the turn of the loop replaces both.
    If [bottom - crossing.y], as computed, is at most
    [(bottom - top) / 2], as computed, [cl] becomes the line from its first
    end point to [(crossing.x, bottom)] and [cr] the line from its first
    end point to the same point; otherwise [cl] becomes the line from
    [(crossing.x, top)] to its second end point, and [cr] likewise.  No
    other line changes in that turn, the vector keeps its length, and
    [adaptCutters] returns the vector after the last turn.  When the
    subtraction and the division are exact, a crossing computed at
    mid-height goes to the bottom. *)
Theorem adaptCutters_resolves_conflict (A : Arith)
    (lines : list QLineF.t) (rect : QRectF.t) (k : nat) (cl cr : QLineF.t) :
  let ub := QRectF.top rect in
  let lb := Computed.bottom A rect in
  let before := Computed.cuttersAfter A k lines rect in
  let after := Computed.cuttersAfter A (S k) lines rect in
  let crossing := snd (Computed.intersects A cl cr) in
  before !! k = Some cl ->
  before !! S k = Some cr ->
  Computed.crossesInside A ub lb cl cr ->
  (a_sub A lb (QPointF.y crossing) <= a_div A (a_sub A lb ub) 2 ->
   after !! k = Some (QLineF.mk (p1 cl) (QPointF.mk (QPointF.x crossing) lb))
   /\ after !! S k = Some (QLineF.mk (p1 cr) (QPointF.mk (QPointF.x crossing) lb)))
  /\ (~ a_sub A lb (QPointF.y crossing) <= a_div A (a_sub A lb ub) 2 ->
      after !! k = Some (QLineF.mk (QPointF.mk (QPointF.x crossing) ub) (p2 cl))
      /\ after !! S k = Some (QLineF.mk (QPointF.mk (QPointF.x crossing) ub) (p2 cr)))
  /\ (forall j, j <> k -> j <> S k -> after !! j = before !! j)
  /\ length after = length lines
  /\ Computed.adaptCutters A lines rect
     = Computed.cuttersAfter A (length lines - 1) lines rect
  /\ ((forall a b, a_sub A a b == a - b) -> (forall a b, a_div A a b == a / b) ->
      QPointF.y crossing == (ub + lb) / 2 ->
      after !! k = Some (QLineF.mk (p1 cl) (QPointF.mk (QPointF.x crossing) lb))
      /\ after !! S k = Some (QLineF.mk (p1 cr) (QPointF.mk (QPointF.x crossing) lb))).
Proof.
  intros ub lb before after crossing Hl Hr Hin.
  assert (Hk : (k < length before)%nat) by (eapply lookup_lt_Some; exact Hl).
  assert (Hk' : (S k < length before)%nat) by (eapply lookup_lt_Some; exact Hr).
  assert (Hstep : after = Computed.resolveAt A ub lb before (S k))
    by apply computed_cuttersAfter_S.
  assert (Hbottom : a_sub A lb (QPointF.y crossing) <= a_div A (a_sub A lb ub) 2 ->
    after !! k = Some (QLineF.mk (p1 cl) (QPointF.mk (QPointF.x crossing) lb))
    /\ after !! S k = Some (QLineF.mk (p1 cr) (QPointF.mk (QPointF.x crossing) lb))).
  { intros Hle.
    destruct (computed_resolveAt_cases A ub lb before k cl cr Hl Hr)
      as [[H _] | [(_ & _ & H) | (_ & H & _)]].
    - contradiction.
    - rewrite Hstep, H. split.
      + rewrite list_lookup_insert_ne by lia. apply list_lookup_insert_eq. exact Hk.
      + apply list_lookup_insert_eq. rewrite length_insert. exact Hk'.
    - exfalso. fold crossing in H. exact (Qlt_not_le _ _ H Hle). }
  split; [exact Hbottom|]. split; [|split; [|split; [|split]]].
  - intros Hgt.
    destruct (computed_resolveAt_cases A ub lb before k cl cr Hl Hr)
      as [[H _] | [(_ & H & _) | (_ & _ & H)]];
      [contradiction | contradiction |].
    rewrite Hstep, H. split.
    + rewrite list_lookup_insert_ne by lia. apply list_lookup_insert_eq. exact Hk.
    + apply list_lookup_insert_eq. rewrite length_insert. exact Hk'.
  - intros j Hj Hj'. rewrite Hstep.
    destruct (computed_resolveAt_cases A ub lb before k cl cr Hl Hr)
      as [[_ H] | [(_ & _ & H) | (_ & _ & H)]];
      rewrite H; [reflexivity | |]; rewrite !list_lookup_insert_ne by lia; reflexivity.
  - apply computed_cuttersAfter_length.
  - apply computed_adaptCutters_cuttersAfter.
  - intros Hsub Hdiv Hmid. apply Hbottom.
    rewrite Hdiv, !Hsub, Hmid.
    assert (Heq : lb - (ub + lb) / 2 == (lb - ub) / 2) by field.
    rewrite Heq. apply Qle_refl.
Qed.

End ComputedLoopClaims.

Lemma adaptCutters_resolves_conflict_witness :
  let rect := QRectF.mk 0 0 100 100 in
  let low := [QLineF.ofCoords 0 0 100 100; QLineF.ofCoords 40 0 90 100] in
  let high := [QLineF.ofCoords 0 0 100 100; QLineF.ofCoords 10 0 60 100] in
  let mid := [QLineF.ofCoords 0 0 17 100; QLineF.ofCoords 17 0 0 100] in
  let cl := QLineF.ofCoords 0 0 100 100 in
  let cr := QLineF.ofCoords 40 0 90 100 in
  let cr' := QLineF.ofCoords 10 0 60 100 in
  let ml := PageLayoutAdapter.adaptCutter (QLineF.ofCoords 0 0 17 100) rect in
  let mr := PageLayoutAdapter.adaptCutter (QLineF.ofCoords 17 0 0 100) rect in
  let crossing := snd (Computed.intersects Double.arith cl cr) in
  let crossing' := snd (Computed.intersects Double.arith cl cr') in
  let crossing'' := snd (Computed.intersects exactArith ml mr) in
  let square := QRectF.mk 0 0 128 128 in
  let sl := QLineF.ofCoords 0 0 128 128 in
  let sr := QLineF.ofCoords 128 0 0 128 in
  let crossing''' := snd (Computed.intersects Double.arith sl sr) in
  (crossing = QPointF.mk 80 80
   /\ Computed.cuttersAfter Double.arith 1 low rect !! 0%nat
      = Some (QLineF.mk (QLineF.p1 cl)
                (QPointF.mk (QPointF.x crossing) (Computed.bottom Double.arith rect)))
   /\ Computed.cuttersAfter Double.arith 1 low rect !! 1%nat
      = Some (QLineF.mk (QLineF.p1 cr)
                (QPointF.mk (QPointF.x crossing) (Computed.bottom Double.arith rect))))
  /\ (crossing' = QPointF.mk 20 20
      /\ Computed.cuttersAfter Double.arith 1 high rect !! 0%nat
         = Some (QLineF.mk (QPointF.mk (QPointF.x crossing') (QRectF.top rect))
                   (QLineF.p2 cl))
      /\ Computed.cuttersAfter Double.arith 1 high rect !! 1%nat
         = Some (QLineF.mk (QPointF.mk (QPointF.x crossing') (QRectF.top rect))
                   (QLineF.p2 cr')))
  /\ (QPointF.y crossing'' == 50
      /\ Computed.cuttersAfter exactArith 1 mid rect !! 0%nat
         = Some (QLineF.mk (QLineF.p1 ml)
                   (QPointF.mk (QPointF.x crossing'') (Computed.bottom exactArith rect)))
      /\ Computed.cuttersAfter exactArith 1 mid rect !! 1%nat
         = Some (QLineF.mk (QLineF.p1 mr)
                   (QPointF.mk (QPointF.x crossing'') (Computed.bottom exactArith rect))))
  /\ (crossing''' = QPointF.mk 64 64
      /\ Computed.cuttersAfter Double.arith 1 [sl; sr] square !! 0%nat
         = Some (QLineF.mk (QLineF.p1 sl)
                   (QPointF.mk (QPointF.x crossing''')
                      (Computed.bottom Double.arith square)))
      /\ Computed.cuttersAfter Double.arith 1 [sl; sr] square !! 1%nat
         = Some (QLineF.mk (QLineF.p1 sr)
                   (QPointF.mk (QPointF.x crossing''')
                      (Computed.bottom Double.arith square)))).
Proof.
  intros rect low high mid cl cr cr' ml mr crossing crossing' crossing''
    square sl sr crossing'''.
  split; [|split; [|split]]; (split; [by_evaluation|]).
  - refine (proj1 (adaptCutters_resolves_conflict Double.arith low rect 0 cl cr _ _ _) _).
    + by_evaluation.
    + by_evaluation.
    + split; by_evaluation.
    + by_evaluation.
  - refine (proj1 (proj2 (adaptCutters_resolves_conflict Double.arith high rect 0 cl cr' _ _ _)) _).
    + by_evaluation.
    + by_evaluation.
    + split; by_evaluation.
    + intros Hle. apply (Qle_not_lt _ _ Hle). by_evaluation.
  - refine (proj2 (proj2 (proj2 (proj2 (proj2
              (adaptCutters_resolves_conflict exactArith mid rect 0 ml mr _ _ _))))) _ _ _).
    + by_evaluation.
    + by_evaluation.
    + split; by_evaluation.
    + intros a b. reflexivity.
    + intros a b. reflexivity.
    + by_evaluation.
  - refine (proj1 (adaptCutters_resolves_conflict Double.arith [sl; sr] square 0 sl sr _ _ _) _).
    + by_evaluation.
    + by_evaluation.
    + split; by_evaluation.
    + by_evaluation.
Defined.

(** C2 fails as it is written in its last sentence.  The two lines below
    are their own projections and cross at [(17/2, 50)], at mid-height of
    the rectangle; the crossing the program computes on doubles has
    [y = 49.99999999999999], above mid-height, and the first end points are
    moved to the top instead of the second to the bottom. *)
Lemma adaptCutters_mid_height_goes_to_top :
  let rect := QRectF.mk 0 0 100 100 in
  let cl := QLineF.ofCoords 0 0 17 100 in
  let cr := QLineF.ofCoords 17 0 0 100 in
  QRectF.isValid rect = true
  /\ Computed.cuttersAfter Double.arith 0 [cl; cr] rect = [cl; cr]
  /\ fst (QLineF.intersects cl cr) = QLineF.BoundedIntersection
  /\ QPointF.x (snd (QLineF.intersects cl cr)) == 17 # 2
  /\ QPointF.y (snd (QLineF.intersects cl cr)) == 50
  /\ (QRectF.top rect + QRectF.bottom rect) / 2 == 50
  /\ QPointF.y (snd (Computed.intersects Double.arith cl cr))
     == 7036874417766399 # 140737488355328
  /\ exists o0 o1,
       Computed.adaptCutters Double.arith [cl; cr] rect = [o0; o1]
       /\ QLineF.x1 o0 == 4785074604081151 # 562949953421312 /\ QLineF.y1 o0 == 0
       /\ QLineF.x1 o1 == 4785074604081151 # 562949953421312 /\ QLineF.y1 o1 == 0
       /\ QLineF.p2 o0 = QLineF.p2 cl /\ QLineF.p2 o1 = QLineF.p2 cr.
Proof.
  intros rect cl cr.
  split; [reflexivity|]. split; [vm_compute; reflexivity|].
  split; [by_evaluation|]. split; [by_evaluation|]. split; [by_evaluation|].
  split; [by_evaluation|]. split; [by_evaluation|].
  eexists _, _. split; [vm_compute; reflexivity|].
  repeat split; by_evaluation.
Qed.

(** C1.  The loop of [adaptCutters] leaves neighbours that cross inside the
    rectangle, against the comment that heads it.  With three lines, in
    exact arithmetic as on doubles: the projections at positions 0 and 1
    cross inside, the first turn gives them a common second end point, and
    the turn on positions 1 and 2 moves the second end point of the line
    at 1 again, so that the returned lines at 0 and 1 cross at
    [y = 1500/17].  With two lines, on doubles: the two returned lines have
    the same second end point, on the bottom border, and testing them again
    gives a bounded intersection at [y = 99.99999999999999], inside the
    rectangle. *)
Theorem adaptCutters_leaves_interior_crossing :
  let rect := QRectF.mk 0 0 100 100 in
  let three := [QLineF.ofCoords 0 0 80 100; QLineF.ofCoords 40 0 60 100;
                QLineF.ofCoords 60 0 40 100] in
  let two := [QLineF.ofCoords 0 0 1 100; QLineF.ofCoords 6 0 0 100] in
  QRectF.isValid rect = true
  /\ (crossesInside (QRectF.top rect) (QRectF.bottom rect)
        (PageLayoutAdapter.adaptCutter (QLineF.ofCoords 0 0 80 100) rect)
        (PageLayoutAdapter.adaptCutter (QLineF.ofCoords 40 0 60 100) rect)
      /\ exists o0 o1 o2,
           PageLayoutAdapter.adaptCutters three rect = [o0; o1; o2]
           /\ fst (QLineF.intersects o0 o1) = QLineF.BoundedIntersection
           /\ QPointF.y (snd (QLineF.intersects o0 o1)) == 1500 # 17
           /\ crossesInside (QRectF.top rect) (QRectF.bottom rect) o0 o1)
  /\ (exists o0 o1 o2,
        Computed.adaptCutters Double.arith three rect = [o0; o1; o2]
        /\ fst (Computed.intersects Double.arith o0 o1) = QLineF.BoundedIntersection
        /\ Computed.crossesInside Double.arith
             (QRectF.top rect) (Computed.bottom Double.arith rect) o0 o1)
  /\ (Computed.crossesInside Double.arith
        (QRectF.top rect) (Computed.bottom Double.arith rect)
        (Computed.adaptCutter Double.arith (QLineF.ofCoords 0 0 1 100) rect)
        (Computed.adaptCutter Double.arith (QLineF.ofCoords 6 0 0 100) rect)
      /\ exists o0 o1,
           Computed.adaptCutters Double.arith two rect = [o0; o1]
           /\ QLineF.p2 o0 = QLineF.p2 o1
           /\ QLineF.y2 o0 == QRectF.bottom rect
           /\ fst (Computed.intersects Double.arith o0 o1) = QLineF.BoundedIntersection
           /\ QPointF.y (snd (Computed.intersects Double.arith o0 o1))
              == 7036874417766399 # 70368744177664
           /\ Computed.crossesInside Double.arith
                (QRectF.top rect) (Computed.bottom Double.arith rect) o0 o1).
Proof.
  intros rect three two. split; [reflexivity|]. split; [|split].
  - split; [split; by_evaluation|].
    eexists _, _, _. split; [vm_compute; reflexivity|].
    split; [by_evaluation|]. split; [by_evaluation|].
    split; by_evaluation.
  - eexists _, _, _. split; [vm_compute; reflexivity|].
    split; [by_evaluation|]. split; by_evaluation.
  - split; [split; by_evaluation|].
    eexists _, _. split; [vm_compute; reflexivity|].
    split; [vm_compute; reflexivity|]. split; [by_evaluation|].
    split; [by_evaluation|]. split; [by_evaluation|].
    split; by_evaluation.
Qed.

(** ** Doubles *)

Section DoubleIntegers.

(** The rounding at some familiar places: [0.1], [0.1 + 0.2], which is not
    [0.3], and [1.0 / 3.0]. *)
Lemma double_round_examples :
  Double.round (1 # 10) == 3602879701896397 # 36028797018963968
  /\ a_add Double.arith (Double.round (1 # 10)) (Double.round (2 # 10))
     == 1351079888211149 # 4503599627370496
  /\ Double.round (3 # 10) == 5404319552844595 # 18014398509481984
  /\ a_div Double.arith 1 3 == 6004799503160661 # 18014398509481984.
Proof. by_evaluation. Qed.

Lemma pow2_of_nonneg (e : Z) : (0 <= e)%Z -> Double.pow2 e == inject_Z (2 ^ e).
Proof. intros He. unfold Double.pow2. symmetry. apply (Zpower_Qpower 2 e He). Qed.

Lemma exponent_of_integer (n : Z) :
  n <> 0%Z -> Double.exponent (inject_Z n) = Z.log2 (Z.abs n).
Proof.
  intros Hn. unfold Double.exponent. cbn [Qnum Qden inject_Z].
  change (Z.log2 1) with 0%Z. rewrite Z.sub_0_r.
  assert (H : Qle_bool (Double.pow2 (Z.log2 (Z.abs n))) (Qabs (inject_Z n)) = true).
  { apply Qle_bool_iff. rewrite pow2_of_nonneg by apply Z.log2_nonneg.
    change (Qabs (inject_Z n)) with (inject_Z (Z.abs n)).
    rewrite <- Zle_Qle. apply Z.log2_spec. lia. }
  rewrite H. reflexivity.
Qed.

Lemma roundHalfEven_of_integer (r : Q) (k : Z) :
  r == inject_Z k -> Double.roundHalfEven r = k.
Proof.
  intros Hr. unfold Double.roundHalfEven.
  assert (Hf : Qfloor r = k) by (rewrite Hr; apply Qfloor_Z).
  rewrite Hf.
  assert (Hlt : r - inject_Z k < 1 # 2) by (rewrite Hr; lra_Z).
  assert (Hc : Qcompare (r - inject_Z k) (1 # 2) = Lt)
    by exact (proj1 (Qlt_alt _ _) Hlt).
  rewrite Hc. reflexivity.
Qed.

(** An integer of at most 53 bits is a double. *)
Lemma round_of_integer (n : Z) :
  (Z.abs n <= 2 ^ 53)%Z -> Double.round (inject_Z n) == inject_Z n.
Proof.
  intros Hb.
  destruct (Z.eq_dec (Z.abs n) (2 ^ 53)%Z) as [Htop | Hlow].
  { assert (Hn : n = (2 ^ 53)%Z \/ n = (- 2 ^ 53)%Z) by lia.
    destruct Hn as [-> | ->]; vm_compute; reflexivity. }
  unfold Double.round.
  destruct (Qeq_bool (inject_Z n) 0) eqn:E0.
  { apply Qeq_bool_iff in E0. symmetry. exact E0. }
  apply Qeq_bool_false in E0.
  assert (Hn : n <> 0%Z) by (intros ->; apply E0; reflexivity).
  rewrite (exponent_of_integer n Hn).
  set (e := Z.log2 (Z.abs n)).
  assert (He : (0 <= e < 53)%Z).
  { split; [apply Z.log2_nonneg|]. apply Z.log2_lt_pow2; lia. }
  rewrite Z.max_l by lia.
  set (d := (52 - e)%Z).
  assert (Hq : Double.pow2 (e - 52) == / inject_Z (2 ^ d)).
  { replace (e - 52)%Z with (- d)%Z by (unfold d; lia).
    unfold Double.pow2. rewrite Qpower_opp.
    rewrite <- (pow2_of_nonneg d) by (unfold d; lia). reflexivity. }
  assert (Hp : 0 < inject_Z (2 ^ d)).
  { change 0 with (inject_Z 0). rewrite <- Zlt_Qlt. apply Z.pow_pos_nonneg; unfold d; lia. }
  assert (Hm : Qabs (inject_Z n) / Double.pow2 (e - 52) == inject_Z (Z.abs n * 2 ^ d)).
  { rewrite Hq, inject_Z_mult. change (Qabs (inject_Z n)) with (inject_Z (Z.abs n)).
    field. lra. }
  rewrite (roundHalfEven_of_integer _ _ Hm), Qred_correct, Hq, inject_Z_mult.
  destruct (Qle_bool 0 (inject_Z n)) eqn:Es.
  - apply Qle_bool_iff in Es. change 0 with (inject_Z 0) in Es. rewrite <- Zle_Qle in Es.
    rewrite Z.abs_eq by exact Es. field. lra.
  - apply Qle_bool_false in Es. change 0 with (inject_Z 0) in Es. rewrite <- Zlt_Qlt in Es.
    rewrite Z.abs_neq by lia. rewrite inject_Z_opp. field. lra.
Qed.

Lemma double_add_zero (n : Z) :
  (Z.abs n <= 2 ^ 53)%Z -> forall v : Q,
  a_add Double.arith (inject_Z n) (a_mul Double.arith v 0) == inject_Z n.
Proof.
  intros Hb v. cbn [a_add a_mul Double.arith].
  assert (H0 : Double.round (v * 0) = 0).
  { unfold Double.round.
    assert (E : Qeq_bool (v * 0) 0 = true) by (apply Qeq_bool_iff; ring).
    rewrite E. reflexivity. }
  rewrite H0.
  assert (Hs : inject_Z n + 0 = inject_Z n).
  { unfold Qplus, inject_Z. cbn [Qnum Qden]. rewrite Z.mul_1_r. cbn. rewrite Z.add_0_r. reflexivity. }
  rewrite Hs. apply round_of_integer. exact Hb.
Qed.

(** On doubles [pointAt(0)] of a rounded line is its first end point, as
    long as the coordinates have at most 53 bits. *)
Lemma double_startsAtP1 (c : QLineF.t) :
  (Z.abs (qRound (QLineF.x1 c)) <= 2 ^ 53)%Z ->
  (Z.abs (qRound (QLineF.y1 c)) <= 2 ^ 53)%Z ->
  Computed.startsAtP1 Double.arith (toLine c).
Proof.
  intros Hx Hy. unfold Computed.startsAtP1, Computed.pointAt, QPointF.eqb.
  apply andb_true_iff. rewrite !Qeq_bool_iff.
  split; [apply (double_add_zero _ Hx) | apply (double_add_zero _ Hy)].
Qed.

End DoubleIntegers.

(** ** The correction of a cut layout, whatever the arithmetic *)

Section ComputedType.

Import QLineF PageLayout.

Variable A : Arith.

Lemma computed_matchesBound_spec (c : QLineF.t) (outline : QRectF.t) :
  Computed.matchesBound A c outline = true <-> Computed.collapsedOnto A c outline.
Proof.
  unfold Computed.matchesBound, Computed.collapsedOnto.
  rewrite andb_true_iff, orb_true_iff, !Qeq_bool_iff. reflexivity.
Qed.

(** The type a cut layout is left with, as one test. *)
Lemma computed_type_of_cut (layout : PageLayout.t) :
  type layout = SINGLE_PAGE_CUT ->
  let outline := QRectF.toRect (boundingRect layout) in
  let c1 := toLine (cutterLine layout 0) in
  let c2 := toLine (cutterLine layout 1) in
  let crossing := Computed.intersects A c1 c2 in
  type (Computed.correctPageLayoutType A layout) =
    if (Computed.matchesBound A c1 outline && Computed.matchesBound A c2 outline)
       || (negb (PageLayoutAdapter.isNo (fst crossing))
           && (Qltb (QRectF.top outline) (QPointF.y (snd crossing))
               && Qltb (QPointF.y (snd crossing)) (Computed.bottom A outline)))
       || (PageLayoutAdapter.isNo (fst crossing)
           && QPointF.eqb (Computed.pointAt A c1 0) (Computed.pointAt A c2 0))
    then SINGLE_PAGE_UNCUT
    else SINGLE_PAGE_CUT.
Proof.
  destruct layout as [o ty cs]. intros Hty. cbn [type] in Hty. subst ty.
  intros outline c1 c2 crossing.
  unfold Computed.correctPageLayoutType. cbv zeta. cbn [type].
  fold outline c1 c2. fold crossing.
  destruct crossing as [ity p]. cbn [fst snd].
  destruct (Computed.matchesBound A c1 outline && Computed.matchesBound A c2 outline);
    cbn [orb]; destruct (_ || _); reflexivity.
Qed.

Lemma computed_degenerateCut_spec (outline : QRectF.t) (c1 c2 : QLineF.t) :
  let crossing := Computed.intersects A c1 c2 in
  (Computed.matchesBound A c1 outline && Computed.matchesBound A c2 outline)
  || (negb (PageLayoutAdapter.isNo (fst crossing))
      && (Qltb (QRectF.top outline) (QPointF.y (snd crossing))
          && Qltb (QPointF.y (snd crossing)) (Computed.bottom A outline)))
  || (PageLayoutAdapter.isNo (fst crossing)
      && QPointF.eqb (Computed.pointAt A c1 0) (Computed.pointAt A c2 0)) = true
  <-> Computed.degenerateCut A outline c1 c2.
Proof.
  intros crossing.
  unfold Computed.degenerateCut, Computed.crossesInside, Computed.sameStart.
  fold crossing.
  rewrite !orb_true_iff, !andb_true_iff, !computed_matchesBound_spec, !Qltb_lt,
    negb_true_iff.
  assert (Hno : PageLayoutAdapter.isNo (fst crossing) = true
                <-> fst crossing = NoIntersection).
  { destruct (fst crossing); cbn; split; congruence. }
  assert (Hyes : PageLayoutAdapter.isNo (fst crossing) = false
                 <-> fst crossing <> NoIntersection).
  { destruct (fst crossing); cbn; split; congruence. }
  rewrite Hno, Hyes. tauto.
Qed.

Lemma computed_sameStart_spec (c1 c2 : QLineF.t) :
  Computed.startsAtP1 A c1 -> Computed.startsAtP1 A c2 ->
  (Computed.sameStart A c1 c2
   <-> fst (Computed.intersects A c1 c2) = NoIntersection /\ sameFirstPoint c1 c2).
Proof.
  unfold Computed.sameStart, Computed.startsAtP1, sameFirstPoint, QPointF.eqb.
  rewrite !andb_true_iff, !Qeq_bool_iff. unfold x1, y1.
  intros [H1x H1y] [H2x H2y]. rewrite H1x, H1y, H2x, H2y. reflexivity.
Qed.

End ComputedType.

Section ComputedTypeClaims.

Import QLineF PageLayout.

(** With exact operations [pointAt(0)] is the first end point. *)
Lemma exact_startsAtP1 (c : QLineF.t) : Computed.startsAtP1 exactArith c.
Proof.
  unfold Computed.startsAtP1, Computed.pointAt, QPointF.eqb.
  cbn [a_add a_sub a_mul exactArith QPointF.x QPointF.y].
  apply andb_true_iff. rewrite !Qeq_bool_iff. unfold x1, y1. split; ring.
Qed.

(** C3, on the rounded copies and on the crossing as the program computes
    it.  For a layout of type [SINGLE_PAGE_CUT], with [outline] the rounded
    outline and [c1], [c2] the rounded cutter lines, and whatever the
    arithmetic, [correctPageLayoutType] leaves the type
    [SINGLE_PAGE_UNCUT] when both [c1] and [c2] are vertical on the left
    or the right edge of [outline], or the crossing computed for [c1] and
    [c2] has its [y] strictly between the top and the bottom of [outline],
    or no crossing is found and [pointAt(0)] is the same point on both; in
    every other case the type stays [SINGLE_PAGE_CUT].  Where [pointAt(0)]
    gives the first end point of both lines, the last of the three says
    that no crossing is found and the first end points coincide. *)
Theorem correctPageLayoutType_cut (A : Arith) (layout : PageLayout.t) :
  type layout = SINGLE_PAGE_CUT ->
  let outline := QRectF.toRect (boundingRect layout) in
  let c1 := toLine (cutterLine layout 0) in
  let c2 := toLine (cutterLine layout 1) in
  let corrected := Computed.correctPageLayoutType A layout in
  (Computed.degenerateCut A outline c1 c2 -> type corrected = SINGLE_PAGE_UNCUT)
  /\ (~ Computed.degenerateCut A outline c1 c2 -> type corrected = SINGLE_PAGE_CUT)
  /\ (Computed.startsAtP1 A c1 -> Computed.startsAtP1 A c2 ->
      (Computed.sameStart A c1 c2
       <-> fst (Computed.intersects A c1 c2) = NoIntersection /\ sameFirstPoint c1 c2)).
Proof.
  intros Hty outline c1 c2 corrected.
  pose proof (computed_type_of_cut A layout Hty) as Ht.
  pose proof (computed_degenerateCut_spec A outline c1 c2) as Hd.
  cbv zeta in Ht, Hd. fold outline c1 c2 corrected in Ht.
  destruct (_ || _ || _) eqn:E in Ht.
  - split; [intros _; exact Ht|]. split.
    + intros Hn. exfalso. apply Hn, Hd. exact E.
    + apply computed_sameStart_spec.
  - split.
    + intros Hdeg. apply Hd in Hdeg. unfold outline, c1, c2 in *. congruence.
    + split; [intros _; exact Ht | apply computed_sameStart_spec].
Qed.

End ComputedTypeClaims.

Lemma correctPageLayoutType_cut_witness :
  let edges :=
    PageLayout.ofCutters (QRectF.mk 0 0 100 100)
      (QLineF.ofCoords 0 0 0 100) (QLineF.ofCoords 100 0 100 100) in
  let twins :=
    PageLayout.ofCutters (QRectF.mk 0 0 100 100)
      (QLineF.ofCoords 30 0 40 100) (QLineF.ofCoords 30 0 40 100) in
  let apart :=
    PageLayout.ofCutters (QRectF.mk 0 0 100 100)
      (QLineF.ofCoords 30 0 40 100) (QLineF.ofCoords 60 0 80 100) in
  PageLayout.type (Computed.correctPageLayoutType Double.arith edges)
  = PageLayout.SINGLE_PAGE_UNCUT
  /\ PageLayout.type (Computed.correctPageLayoutType Double.arith twins)
     = PageLayout.SINGLE_PAGE_UNCUT
  /\ PageLayout.type (Computed.correctPageLayoutType Double.arith apart)
     = PageLayout.SINGLE_PAGE_CUT.
Proof.
  intros edges twins apart. split; [|split].
  - refine (proj1 (correctPageLayoutType_cut Double.arith edges eq_refl) _).
    left. split; (split; [by_evaluation|]).
    + left. by_evaluation.
    + right. by_evaluation.
  - destruct (correctPageLayoutType_cut Double.arith twins eq_refl) as (Hdeg & _ & Hstart).
    apply Hdeg. right; right. apply Hstart.
    + apply double_startsAtP1; by_evaluation.
    + apply double_startsAtP1; by_evaluation.
    + split; [by_evaluation | split; by_evaluation].
  - refine (proj1 (proj2 (correctPageLayoutType_cut Double.arith apart eq_refl)) _).
    intros [[[_ [H | H]] _] | [[_ [H _]] | [H _]]]; revert H; by_evaluation.
Defined.

(** C3 fails as it is written, in two ways.  On the lines of the layout
    themselves: the first cutter line of the first layout below is not
    vertical, the two lines meet far above the outline, and yet the type
    becomes [SINGLE_PAGE_UNCUT], in exact arithmetic as on doubles;
    rounded, the first line is the left edge.  On the crossing: the two
    lines of the second layout meet at [(0, 100)], on the bottom of the
    outline, and in exact arithmetic the type stays [SINGLE_PAGE_CUT]; the
    crossing computed on doubles has [y = 99.99999999999999], inside the
    outline, and the type becomes [SINGLE_PAGE_UNCUT]. *)
Lemma correctPageLayoutType_cut_decides_on_rounded :
  let layout :=
    PageLayout.ofCutters (QRectF.mk 0 0 100 100)
      (QLineF.ofCoords (1 # 4) 0 0 100) (QLineF.ofCoords 100 0 100 100) in
  let layout' :=
    PageLayout.ofCutters (QRectF.mk 0 0 100 100)
      (QLineF.ofCoords 0 0 0 100) (QLineF.ofCoords 55 0 0 100) in
  (PageLayout.type layout = PageLayout.SINGLE_PAGE_CUT
   /\ ~ degenerateCut (PageLayout.boundingRect layout)
          (PageLayout.cutterLine layout 0) (PageLayout.cutterLine layout 1)
   /\ PageLayout.type (PageLayoutAdapter.correctPageLayoutType layout)
      = PageLayout.SINGLE_PAGE_UNCUT
   /\ PageLayout.type (Computed.correctPageLayoutType Double.arith layout)
      = PageLayout.SINGLE_PAGE_UNCUT)
  /\ (PageLayout.type layout' = PageLayout.SINGLE_PAGE_CUT
      /\ ~ degenerateCut (PageLayout.boundingRect layout')
             (PageLayout.cutterLine layout' 0) (PageLayout.cutterLine layout' 1)
      /\ QPointF.y (snd (QLineF.intersects (PageLayout.cutterLine layout' 0)
                                           (PageLayout.cutterLine layout' 1)))
         == 100
      /\ PageLayout.type (PageLayoutAdapter.correctPageLayoutType layout')
         = PageLayout.SINGLE_PAGE_CUT
      /\ QPointF.y (snd (Computed.intersects Double.arith
                           (toLine (PageLayout.cutterLine layout' 0))
                           (toLine (PageLayout.cutterLine layout' 1))))
         == 7036874417766399 # 70368744177664
      /\ PageLayout.type (Computed.correctPageLayoutType Double.arith layout')
         = PageLayout.SINGLE_PAGE_UNCUT).
Proof.
  intros layout layout'. split.
  - split; [reflexivity|]. split; [|split; vm_compute; reflexivity].
    intros [[[H _] _] | [[_ [H _]] | [H _]]]; revert H; by_evaluation.
  - split; [reflexivity|]. split; [|split; [by_evaluation|split; [vm_compute; reflexivity|]]].
    + intros [[_ [H _]] | [[_ [_ H]] | [H _]]]; revert H; by_evaluation.
    + split; [by_evaluation | vm_compute; reflexivity].
Qed.

(** * Further properties of the adapter *)

(** ** More on the projection of one line *)

Section AdaptCutterMore.

Import QLineF PageLayoutAdapter.

Lemma upper_crossing_exists (line : QLineF.t) (rect : QRectF.t) :
  QRectF.isValid rect = true ->
  (fst (intersects (upperBorder rect) line) = NoIntersection <-> y1 line == y2 line).
Proof.
  intros Hv. apply isValid_spec in Hv. destruct Hv as [Hw _].
  rewrite intersects_none, denominator_upperBorder. split; intros H.
  - assert (Hz : QRectF.w rect * (y1 line - y2 line) == 0) by lra.
    apply Qmult_integral in Hz. destruct Hz as [Hz | Hz]; lra.
  - rewrite H. ring.
Qed.

Lemma lower_crossing_exists (line : QLineF.t) (rect : QRectF.t) :
  QRectF.isValid rect = true ->
  (fst (intersects (lowerBorder rect) line) = NoIntersection <-> y1 line == y2 line).
Proof.
  intros Hv. apply isValid_spec in Hv. destruct Hv as [Hw _].
  rewrite intersects_none, denominator_lowerBorder. split; intros H.
  - assert (Hz : QRectF.w rect * (y1 line - y2 line) == 0) by lra.
    apply Qmult_integral in Hz. destruct Hz as [Hz | Hz]; lra.
  - rewrite H. ring.
Qed.

(** The result of a projection that is not abandoned. *)
Lemma adaptCutter_projected (line : QLineF.t) (rect : QRectF.t) :
  QRectF.isValid rect = true -> ~ y1 line == y2 line ->
  let adapted := adaptCutter line rect in
  x1 adapted == clampInto (QRectF.left rect) (QRectF.right rect)
                  (QPointF.x (snd (intersects (upperBorder rect) line)))
  /\ y1 adapted == QRectF.top rect
  /\ x2 adapted == clampInto (QRectF.left rect) (QRectF.right rect)
                     (QPointF.x (snd (intersects (lowerBorder rect) line)))
  /\ y2 adapted == QRectF.bottom rect.
Proof.
  intros Hv Hy adapted.
  assert (Hu : fst (intersects (upperBorder rect) line) <> NoIntersection).
  { rewrite (upper_crossing_exists _ _ Hv). exact Hy. }
  assert (Hl : fst (intersects (lowerBorder rect) line) <> NoIntersection).
  { rewrite (lower_crossing_exists _ _ Hv). exact Hy. }
  assert (Hnull : isNull line = false).
  { destruct (isNull line) eqn:E; [|reflexivity].
    exfalso. apply Hu. apply null_line_misses_upper. exact E. }
  assert (Hle : QRectF.left rect <= QRectF.right rect).
  { apply isValid_spec in Hv. unfold QRectF.left, QRectF.right. lra. }
  unfold adapted. rewrite adaptCutter_unfold, Hv, Hnull.
  rewrite (proj2 (isNo_false _) Hu), (proj2 (isNo_false _) Hl).
  cbn [negb orb]. unfold x1, y1, x2, y2. cbn [p1 p2].
  rewrite !clampToRect_y.
  split; [apply clampToRect_x; exact Hle|].
  split; [apply upper_intersection_y; exact Hu|].
  split; [apply clampToRect_x; exact Hle|].
  apply lower_intersection_y; exact Hl.
Qed.

Lemma adaptCutter_fitted (line : QLineF.t) (rect : QRectF.t) :
  QRectF.isValid rect = true -> ~ y1 line == y2 line ->
  fitted rect (adaptCutter line rect).
Proof.
  intros Hv Hy.
  destruct (adaptCutter_projected line rect Hv Hy) as (Hx1 & Hy1 & Hx2 & Hy2).
  assert (Hle : QRectF.left rect <= QRectF.right rect).
  { apply isValid_spec in Hv. unfold QRectF.left, QRectF.right. lra. }
  unfold fitted. split; [exact Hy1|]. split; [exact Hy2|].
  rewrite Hx1, Hx2. split; apply clampInto_bounds; exact Hle.
Qed.

End AdaptCutterMore.

Section AdaptCutterExtras.

Import QLineF PageLayoutAdapter.

(** X1.  On a valid rectangle [adaptCutter] abandons the projection for
    the lines that keep their height and for no other line: a line with
    [y1 == y2] comes back as it is, and every other line comes back running
    from the top border to the bottom border, between the left and the
    right edge.  The test on the lower border fails exactly when the test
    on the upper border does, so on a valid rectangle the second of the two
    never fires by itself. *)
Theorem adaptCutter_abandons_only_level_lines (line : QLineF.t) (rect : QRectF.t) :
  QRectF.isValid rect = true ->
  (y1 line == y2 line -> adaptCutter line rect = line)
  /\ (~ y1 line == y2 line -> fitted rect (adaptCutter line rect))
  /\ (fst (intersects (upperBorder rect) line) = NoIntersection
      <-> fst (intersects (lowerBorder rect) line) = NoIntersection).
Proof.
  intros Hv. split; [|split].
  - intros Hy. apply adaptCutter_identity. right; right; left.
    apply level_line_misses_upper. exact Hy.
  - apply adaptCutter_fitted. exact Hv.
  - rewrite (upper_crossing_exists _ _ Hv), (lower_crossing_exists _ _ Hv). reflexivity.
Qed.

Lemma adaptCutter_abandons_only_level_lines_witness :
  fitted (QRectF.mk 0 0 100 200)
    (adaptCutter (QLineF.ofCoords 125 50 50 200) (QRectF.mk 0 0 100 200)).
Proof.
  refine (proj1 (proj2 (adaptCutter_abandons_only_level_lines
                          (QLineF.ofCoords 125 50 50 200) (QRectF.mk 0 0 100 200) _)) _).
  - reflexivity.
  - by_evaluation.
Defined.

End AdaptCutterExtras.

(** ** The lines stay inside the rectangle *)

Section AdaptCuttersFitted.

Import QLineF PageLayoutAdapter.

(** A point between two heights of a segment lies between its ends. *)
Lemma convex_step (a b lo hi ya yb t ub lb : Q) :
  ya == ub -> yb == lb -> ub < ya + (yb - ya) * t < lb ->
  lo <= a <= hi -> lo <= b <= hi -> lo <= a + (b - a) * t <= hi.
Proof.
  intros H1 H2 [H3 H4] [Ha1 Ha2] [Hb1 Hb2].
  assert (Hh : 0 < yb - ya) by lra.
  assert (Ht0 : 0 < t).
  { destruct (Qlt_le_dec 0 t) as [|Hle]; [assumption|]. exfalso.
    assert ((yb - ya) * t <= 0) by nra. lra. }
  assert (Ht1 : t < 1).
  { destruct (Qlt_le_dec t 1) as [|Hge]; [assumption|]. exfalso.
    assert ((yb - ya) * 1 <= (yb - ya) * t) by nra. lra. }
  split; nra.
Qed.

(** Where a fitted line is crossed inside the rectangle, the crossing lies
    between the left and the right edge. *)
Lemma crossing_within (rect : QRectF.t) (cl cr : QLineF.t) :
  fitted rect cl ->
  crossesInside (QRectF.top rect) (QRectF.bottom rect) cl cr ->
  QRectF.left rect <= QPointF.x (snd (intersects cl cr)) <= QRectF.right rect.
Proof.
  intros (Hy1 & Hy2 & Hx1 & Hx2) [Hx Hin].
  rewrite (intersects_point _ _ Hx) in Hin |- *.
  unfold x1, x2, y1, y2 in *.
  cbn [QPointF.add QPointF.sub QPointF.scale QPointF.x QPointF.y] in *.
  exact (convex_step _ _ _ _ _ _ _ _ _ Hy1 Hy2 Hin Hx1 Hx2).
Qed.

Lemma fitted_setP2 (rect : QRectF.t) (c : QLineF.t) (x : Q) :
  fitted rect c -> QRectF.left rect <= x <= QRectF.right rect ->
  fitted rect (setP2 c (QPointF.mk x (QRectF.bottom rect))).
Proof.
  intros (Hy1 & Hy2 & Hx1 & Hx2) Hx. unfold fitted, setP2, x1, x2, y1, y2 in *.
  cbn [p1 p2 QPointF.x QPointF.y].
  split; [exact Hy1|]. split; [reflexivity|]. split; assumption.
Qed.

Lemma fitted_setP1 (rect : QRectF.t) (c : QLineF.t) (x : Q) :
  fitted rect c -> QRectF.left rect <= x <= QRectF.right rect ->
  fitted rect (setP1 c (QPointF.mk x (QRectF.top rect))).
Proof.
  intros (Hy1 & Hy2 & Hx1 & Hx2) Hx. unfold fitted, setP1, x1, x2, y1, y2 in *.
  cbn [p1 p2 QPointF.x QPointF.y].
  split; [reflexivity|]. split; [exact Hy2|]. split; assumption.
Qed.

Lemma resolveAt_fitted (rect : QRectF.t) (cs : list QLineF.t) (k : nat) :
  Forall (fitted rect) cs ->
  Forall (fitted rect) (resolveAt (QRectF.top rect) (QRectF.bottom rect) cs (S k)).
Proof.
  intros Hall.
  destruct (cs !! k) as [cl|] eqn:Hl; [destruct (cs !! S k) as [cr|] eqn:Hr|].
  - pose proof (Forall_lookup_1 _ _ _ _ Hall Hl) as Hcl.
    pose proof (Forall_lookup_1 _ _ _ _ Hall Hr) as Hcr.
    destruct (resolveAt_cases (QRectF.top rect) (QRectF.bottom rect) cs k cl cr Hl Hr)
      as [[_ H] | [(Hin & _ & H) | (Hin & _ & H)]]; rewrite H; [exact Hall | |];
      pose proof (crossing_within rect cl cr Hcl Hin) as Hx;
      repeat apply Forall_insert; try exact Hall.
    + apply fitted_setP2; assumption.
    + apply fitted_setP2; assumption.
    + apply fitted_setP1; assumption.
    + apply fitted_setP1; assumption.
  - unfold resolveAt. replace (S k - 1)%nat with k by lia. rewrite Hl, Hr. exact Hall.
  - unfold resolveAt. replace (S k - 1)%nat with k by lia. rewrite Hl. exact Hall.
Qed.

Lemma cuttersAfter_fitted (k : nat) (lines : list QLineF.t) (rect : QRectF.t) :
  QRectF.isValid rect = true ->
  Forall (fun l => ~ y1 l == y2 l) lines ->
  Forall (fitted rect) (cuttersAfter k lines rect).
Proof.
  intros Hv Hlines. induction k as [|k IH].
  - rewrite cuttersAfter_0.
    eapply Permutation_Forall; [symmetry; apply sortCutters_perm|].
    apply Forall_map. eapply Forall_impl; [exact Hlines|].
    intros l Hl. cbn beta. apply adaptCutter_fitted; assumption.
  - rewrite cuttersAfter_S. apply resolveAt_fitted. exact IH.
Qed.

(** X5.  On a valid rectangle, if no input line keeps its height, every
    line that [adaptCutters] returns runs from the top border to the bottom
    border and has both end points between the left and the right edge:
    neither the projection nor the settling of crossings takes a line out
    of the rectangle. *)
Theorem adaptCutters_fitted (lines : list QLineF.t) (rect : QRectF.t) :
  QRectF.isValid rect = true ->
  Forall (fun l => ~ y1 l == y2 l) lines ->
  Forall (fitted rect) (adaptCutters lines rect).
Proof.
  intros Hv Hlines. rewrite adaptCutters_cuttersAfter.
  apply cuttersAfter_fitted; assumption.
Qed.

Lemma adaptCutters_fitted_witness :
  Forall (fitted (QRectF.mk 0 0 100 100))
    (adaptCutters [QLineF.ofCoords 0 0 80 100; QLineF.ofCoords 40 0 60 100;
                   QLineF.ofCoords 60 0 40 100] (QRectF.mk 0 0 100 100)).
Proof.
  apply adaptCutters_fitted; [reflexivity|].
  repeat constructor; by_evaluation.
Defined.

End AdaptCuttersFitted.

(** ** More on the adaptation of a layout *)

Section AdaptPageLayoutExtras.

Import QLineF PageLayout PageLayoutAdapter.

Lemma correctedType_idempotent (ty : LayoutType) (outline : QRectF.t) (c1 c2 : QLineF.t) :
  correctedType (correctedType ty outline c1 c2) outline c1 c2
  = correctedType ty outline c1 c2.
Proof.
  destruct ty; cbn [correctedType]; [reflexivity | |].
  - destruct (_ || _ || _) eqn:E; cbn [correctedType]; [reflexivity|].
    rewrite E. reflexivity.
  - destruct (matchesBound c1 outline) eqn:E; cbn [correctedType]; [reflexivity|].
    rewrite E. reflexivity.
Qed.

Lemma correctedType_degrades (ty : LayoutType) (outline : QRectF.t) (c1 c2 : QLineF.t) :
  correctedType ty outline c1 c2 = ty
  \/ correctedType ty outline c1 c2 = SINGLE_PAGE_UNCUT.
Proof.
  destruct ty; cbn [correctedType]; [left; reflexivity | |].
  - destruct (_ || _ || _); [right | left]; reflexivity.
  - destruct (matchesBound c1 outline); [right | left]; reflexivity.
Qed.

Lemma adaptPageLayout_outline (pageLayout : PageLayout.t) (outline : QRectF.t) :
  QRectF.eqb (boundingRect pageLayout) outline = false ->
  uncutOutline (adaptPageLayout pageLayout outline) = outline.
Proof.
  intros H. unfold adaptPageLayout. rewrite H.
  destruct (type pageLayout); [reflexivity | |];
    rewrite correctPageLayoutType_eq; reflexivity.
Qed.

(** X6.  [correctPageLayoutType] settles the type in one go: applying it to
    its own result changes nothing. *)
Theorem correctPageLayoutType_idempotent (layout : PageLayout.t) :
  correctPageLayoutType (correctPageLayoutType layout) = correctPageLayoutType layout.
Proof.
  rewrite (correctPageLayoutType_eq (correctPageLayoutType layout)).
  rewrite (correctPageLayoutType_eq layout).
  unfold cutterLine, boundingRect. cbn [uncutOutline type cutterLines].
  rewrite correctedType_idempotent. reflexivity.
Qed.

(** X7.  When the new outline differs from the bounding rectangle of the
    old one, the layout that [adaptPageLayout] returns has the new outline
    as its outline, and its type is the type of the old layout or
    [SINGLE_PAGE_UNCUT]: adapting never turns an uncut layout into a cut
    one, nor a cut layout into a two-page one or back. *)
Theorem adaptPageLayout_new_outline (pageLayout : PageLayout.t) (outline : QRectF.t) :
  QRectF.eqb (boundingRect pageLayout) outline = false ->
  let adapted := adaptPageLayout pageLayout outline in
  uncutOutline adapted = outline
  /\ (type adapted = type pageLayout \/ type adapted = SINGLE_PAGE_UNCUT).
Proof.
  intros H adapted. split; [apply adaptPageLayout_outline; exact H|].
  unfold adapted, adaptPageLayout. rewrite H.
  destruct (type pageLayout) eqn:Hty; [left; reflexivity | |];
    rewrite correctPageLayoutType_eq; cbn [type]; apply correctedType_degrades.
Qed.

Lemma adaptPageLayout_new_outline_witness :
  let adapted :=
    adaptPageLayout
      (ofCutters (QRectF.mk 0 0 200 300)
         (QLineF.ofCoords 50 0 60 300) (QLineF.ofCoords 150 0 140 300))
      (QRectF.mk 0 0 100 300) in
  uncutOutline adapted = QRectF.mk 0 0 100 300
  /\ (type adapted = SINGLE_PAGE_CUT \/ type adapted = SINGLE_PAGE_UNCUT).
Proof.
  apply (adaptPageLayout_new_outline
           (ofCutters (QRectF.mk 0 0 200 300)
              (QLineF.ofCoords 50 0 60 300) (QLineF.ofCoords 150 0 140 300))
           (QRectF.mk 0 0 100 300)).
  reflexivity.
Defined.

(** X8.  Adapting twice to the same outline is adapting once: what
    [adaptPageLayout] returns for an outline is returned as it is when it
    is adapted to that outline again. *)
Theorem adaptPageLayout_idempotent (pageLayout : PageLayout.t) (outline : QRectF.t) :
  adaptPageLayout (adaptPageLayout pageLayout outline) outline
  = adaptPageLayout pageLayout outline.
Proof.
  destruct (QRectF.eqb (boundingRect pageLayout) outline) eqn:H.
  - rewrite (adaptPageLayout_unchanged _ _ H).
    apply adaptPageLayout_unchanged. exact H.
  - apply adaptPageLayout_unchanged. unfold boundingRect.
    rewrite (adaptPageLayout_outline _ _ H). apply QRectF_eqb_refl.
Qed.

(** X9.  After an adaptation to a valid outline that differs from the old
    one, the cutter lines of the layout lie inside the new outline: if none
    of the cutter lines the old layout has for its type keeps its height,
    every cutter line of the result runs from the top border of the new
    outline to its bottom border, between its left and right edge. *)
Theorem adaptPageLayout_cutters_fitted (pageLayout : PageLayout.t) (outline : QRectF.t) :
  QRectF.isValid outline = true ->
  QRectF.eqb (boundingRect pageLayout) outline = false ->
  (forall idx, (idx < numCutters (type pageLayout))%nat ->
               ~ y1 (cutterLine pageLayout idx) == y2 (cutterLine pageLayout idx)) ->
  Forall (fitted outline) (cutterLines (adaptPageLayout pageLayout outline)).
Proof.
  intros Hv Hne Hlines. unfold adaptPageLayout. rewrite Hne.
  destruct (type pageLayout) eqn:Hty; cbn [numCutters] in Hlines.
  - constructor.
  - rewrite correctPageLayoutType_eq. cbn [cutterLines ofCutters].
    set (lines := [cutterLine pageLayout 0; cutterLine pageLayout 1]).
    assert (Hall : Forall (fitted outline) (adaptCutters lines outline)).
    { rewrite adaptCutters_cuttersAfter. apply cuttersAfter_fitted; [exact Hv|].
      repeat constructor; apply Hlines; lia. }
    assert (Hlen : length (adaptCutters lines outline) = 2%nat).
    { rewrite adaptCutters_cuttersAfter. apply cuttersAfter_length. }
    destruct (adaptCutters lines outline) as [|o1 [|o2 [|]]]; try discriminate.
    exact Hall.
  - rewrite correctPageLayoutType_eq. cbn [cutterLines ofSplitLine].
    constructor; [|constructor].
    apply adaptCutter_fitted; [exact Hv|]. apply Hlines. lia.
Qed.

Lemma adaptPageLayout_cutters_fitted_witness :
  Forall (fitted (QRectF.mk 0 0 100 300))
    (cutterLines
       (adaptPageLayout
          (ofCutters (QRectF.mk 0 0 200 300)
             (QLineF.ofCoords 50 0 60 300) (QLineF.ofCoords 150 0 140 300))
          (QRectF.mk 0 0 100 300))).
Proof.
  apply adaptPageLayout_cutters_fitted; [reflexivity | reflexivity |].
  intros [|[|idx]] Hidx; [by_evaluation | by_evaluation |].
  exfalso. cbn in Hidx. lia.
Defined.

End AdaptPageLayoutExtras.

(** ** The order of the input lines *)

Section InputOrder.

Import QLineF PageLayoutAdapter.

Lemma insertSorted_comm (a b : QLineF.t) (cs : list QLineF.t) :
  ~ x1 a == x1 b ->
  insertSorted a (insertSorted b cs) = insertSorted b (insertSorted a cs).
Proof.
  intros Hab. induction cs as [|d cs IH].
  - cbn [insertSorted].
    destruct (lessThan b a) eqn:E1, (lessThan a b) eqn:E2; try reflexivity;
      unfold lessThan in *; reflect_tests; exfalso; lra.
  - cbn [insertSorted].
    destruct (lessThan d b) eqn:Edb, (lessThan d a) eqn:Eda; cbn [insertSorted];
      rewrite ?Edb, ?Eda.
    + rewrite IH. reflexivity.
    + destruct (lessThan a b) eqn:Eab; cbn [insertSorted]; rewrite ?Edb;
        [reflexivity|].
      unfold lessThan in *. reflect_tests. exfalso. lra.
    + destruct (lessThan b a) eqn:Eba; cbn [insertSorted]; rewrite ?Eda;
        [reflexivity|].
      unfold lessThan in *. reflect_tests. exfalso. lra.
    + destruct (lessThan b a) eqn:Eba, (lessThan a b) eqn:Eab; cbn [insertSorted];
        rewrite ?Edb, ?Eda; try reflexivity;
        unfold lessThan in *; reflect_tests; exfalso; lra.
Qed.

Lemma distinctX1_cons (c : QLineF.t) (cs : list QLineF.t) :
  distinctX1 (c :: cs) -> distinctX1 cs.
Proof. unfold distinctX1. cbn [map]. intros H. inversion H; assumption. Qed.

Lemma distinctX1_head (c d : QLineF.t) (cs : list QLineF.t) :
  distinctX1 (c :: d :: cs) -> ~ x1 c == x1 d.
Proof.
  unfold distinctX1. cbn [map]. intros H Heq.
  apply Qred_complete in Heq.
  inversion H as [|? ? Hnotin _]; subst. apply Hnotin. rewrite Heq. left.
Qed.

Lemma sortCutters_of_permutation (cs cs' : list QLineF.t) :
  Permutation cs cs' -> distinctX1 cs -> sortCutters cs = sortCutters cs'.
Proof.
  induction 1 as [|c cs cs' Hp IH|c d cs|cs cs' cs'' Hp1 IH1 Hp2 IH2]; intros Hd.
  - reflexivity.
  - cbn [sortCutters]. rewrite IH; [reflexivity|]. eapply distinctX1_cons. exact Hd.
  - cbn [sortCutters]. apply insertSorted_comm. eapply distinctX1_head. exact Hd.
  - rewrite IH1 by exact Hd. apply IH2.
    unfold distinctX1 in *.
    assert (Hp : Permutation (map (fun c => Qred (x1 c)) cs)
                             (map (fun c => Qred (x1 c)) cs')).
    { apply Permutation_map. exact Hp1. }
    rewrite <- Hp. exact Hd.
Qed.

(** X10.  The result of [adaptCutters] depends on which lines it is given,
    not on the order they come in: two inputs that are rearrangements of
    each other give the same result, provided no two of the projected lines
    start at the same [x] (where the sort would have to break a tie). *)
Theorem adaptCutters_order_irrelevant (lines lines' : list QLineF.t) (rect : QRectF.t) :
  Permutation lines lines' ->
  distinctX1 (map (fun cutter => adaptCutter cutter rect) lines) ->
  adaptCutters lines rect = adaptCutters lines' rect.
Proof.
  intros Hp Hd. unfold adaptCutters.
  rewrite (sortCutters_of_permutation
             (map (fun cutter => adaptCutter cutter rect) lines)
             (map (fun cutter => adaptCutter cutter rect) lines')).
  - reflexivity.
  - apply Permutation_map. exact Hp.
  - exact Hd.
Qed.

Lemma adaptCutters_order_irrelevant_witness :
  adaptCutters [QLineF.ofCoords 40 0 90 100; QLineF.ofCoords 0 0 100 100]
               (QRectF.mk 0 0 100 100)
  = adaptCutters [QLineF.ofCoords 0 0 100 100; QLineF.ofCoords 40 0 90 100]
                 (QRectF.mk 0 0 100 100).
Proof.
  apply adaptCutters_order_irrelevant.
  - apply perm_swap.
  - unfold distinctX1. apply NoDup_cons. split.
    + intros H. apply list_elem_of_singleton in H. vm_compute in H. discriminate H.
    + apply NoDup_singleton.
Defined.

End InputOrder.

(** * Properties of the small vectors *)

Section VecNTLoops.

Context {T : Type} `{Scalar T}.

(** A loop that rewrites the element at each index from its old value
    rewrites every element once. *)
Lemma foldl_update {N : nat} (g : fin N -> T -> T) (idxs : list (fin N)) :
  NoDup idxs ->
  forall (v : vec T N) (j : fin N),
    foldl (fun d i => vinsert i (g i (d !!! i)) d) v idxs !!! j
    = if decide (j ∈ idxs) then g j (v !!! j) else v !!! j.
Proof.
  induction idxs as [|i idxs IH]; intros Hnd v j.
  - reflexivity.
  - apply NoDup_cons in Hnd. destruct Hnd as [Hi Hnd].
    cbn [foldl]. rewrite (IH Hnd).
    destruct (decide (j ∈ idxs)) as [Hj | Hj].
    + assert (Hne : i <> j) by (intros ->; contradiction).
      rewrite (vlookup_insert_ne _ _ _ _ Hne).
      rewrite decide_True by (right; exact Hj). reflexivity.
    + destruct (decide (i = j)) as [-> | Hne].
      * rewrite vlookup_insert. rewrite decide_True by left. reflexivity.
      * rewrite (vlookup_insert_ne _ _ _ _ Hne).
        rewrite decide_False; [reflexivity|].
        intros Hin. apply elem_of_cons in Hin. destruct Hin as [-> | Hin]; contradiction.
Qed.

Lemma forEachIndex_update {N : nat} (g : fin N -> T -> T) (v : vec T N) (j : fin N) :
  VecNT.forEachIndex (fun i d => vinsert i (g i (d !!! i)) d) v !!! j = g j (v !!! j).
Proof.
  unfold VecNT.forEachIndex.
  change (fin_enum N) with (enum (fin N)).
  rewrite (foldl_update g (enum (fin N)) (NoDup_enum (fin N))).
  rewrite decide_True; [reflexivity|]. apply elem_of_enum.
Qed.

Lemma timesAssign_lookup {N : nat} (v : VecNT.t N T) (scalar : T) (i : fin N) :
  VecNT.timesAssign v scalar !!! i = s_mul (v !!! i) scalar.
Proof. apply (forEachIndex_update (fun _ x => s_mul x scalar)). Qed.

Lemma plusAssign_lookup {N : nat} (v w : VecNT.t N T) (i : fin N) :
  VecNT.plusAssign v w !!! i = s_add (v !!! i) (w !!! i).
Proof. apply (forEachIndex_update (fun i x => s_add x (w !!! i))). Qed.

Lemma minusAssign_lookup {N : nat} (v w : VecNT.t N T) (i : fin N) :
  VecNT.minusAssign v w !!! i = s_sub (v !!! i) (w !!! i).
Proof. apply (forEachIndex_update (fun i x => s_sub x (w !!! i))). Qed.

(** X11.  The compound assignments work element by element, and touch
    each element once: after [v += s], [v -= s], [v *= s] the element at
    every index is the old one combined with the scalar, and after
    [v += w], [v -= w] it is the old one combined with the element of [w]
    at the same index. *)
Theorem compound_assignment_elementwise {N : nat} (v w : VecNT.t N T) (scalar : T)
    (i : fin N) :
  VecNT.plusAssignScalar v scalar !!! i = s_add (v !!! i) scalar
  /\ VecNT.plusAssign v w !!! i = s_add (v !!! i) (w !!! i)
  /\ VecNT.minusAssignScalar v scalar !!! i = s_sub (v !!! i) scalar
  /\ VecNT.minusAssign v w !!! i = s_sub (v !!! i) (w !!! i)
  /\ VecNT.timesAssign v scalar !!! i = s_mul (v !!! i) scalar.
Proof.
  split; [apply (forEachIndex_update (fun _ x => s_add x scalar))|].
  split; [apply plusAssign_lookup|].
  split; [apply (forEachIndex_update (fun _ x => s_sub x scalar))|].
  split; [apply minusAssign_lookup | apply timesAssign_lookup].
Qed.

(** X12.  Division by a scalar is one division and [N] multiplications:
    [v /= s] and [v / s] leave at every index the old element times
    [T(1) / s].  Dividing a scalar by a vector does the same: [s / v] is
    [v / s], and at an index where [v[i] * (T(1) / s)] is not [s / v[i]]
    the element of [s / v] is not the quotient [s / v[i]]. *)
Theorem division_multiplies_by_reciprocal {N : nat} (v : VecNT.t N T) (scalar : T)
    (i : fin N) :
  VecNT.divAssign v scalar !!! i = s_mul (v !!! i) (s_div s_one scalar)
  /\ VecNT.divide v scalar !!! i = s_mul (v !!! i) (s_div s_one scalar)
  /\ VecNT.divideLeft scalar v !!! i = s_mul (v !!! i) (s_div s_one scalar)
  /\ VecNT.divideLeft scalar v = VecNT.divide v scalar
  /\ (s_mul (v !!! i) (s_div s_one scalar) <> s_div scalar (v !!! i) ->
      VecNT.divideLeft scalar v !!! i <> s_div scalar (v !!! i)).
Proof.
  assert (Hl : VecNT.divideLeft scalar v !!! i = s_mul (v !!! i) (s_div s_one scalar)).
  { unfold VecNT.divideLeft, VecNT.divAssign. apply timesAssign_lookup. }
  split; [unfold VecNT.divAssign; apply timesAssign_lookup|].
  split; [unfold VecNT.divide, VecNT.divAssign; apply timesAssign_lookup|].
  split; [exact Hl|]. split; [reflexivity|].
  intros Hne Heq. apply Hne. rewrite <- Hl. exact Heq.
Qed.

(** X13.  The binary operators return a new vector, element by element:
    [lhs + rhs] and [lhs - rhs] combine the elements at the same index,
    [-vec] negates each element, and both [vec * scalar] and
    [scalar * vec] multiply each element by the scalar on the right. *)
Theorem binary_operators_elementwise {N : nat} (lhs rhs : VecNT.t N T) (scalar : T)
    (i : fin N) :
  VecNT.plus lhs rhs !!! i = s_add (lhs !!! i) (rhs !!! i)
  /\ VecNT.minus lhs rhs !!! i = s_sub (lhs !!! i) (rhs !!! i)
  /\ VecNT.negate lhs !!! i = s_neg (lhs !!! i)
  /\ VecNT.times lhs scalar !!! i = s_mul (lhs !!! i) scalar
  /\ VecNT.timesLeft scalar lhs !!! i = s_mul (lhs !!! i) scalar.
Proof.
  split; [apply plusAssign_lookup|].
  split; [apply minusAssign_lookup|].
  split; [apply (forEachIndex_update (fun _ x => s_neg x))|].
  split; apply timesAssign_lookup.
Qed.

(** X14.  The constructors write every element, whatever the storage held
    before: [VecNT()] leaves [T()] at each index, and the construction from
    a vector of another element type leaves the converted element of that
    vector at each index. *)
Theorem constructors_initialise {N : nat} {OT : Type} (cast : OT -> T)
    (other : VecNT.t N OT) (storage : VecNT.t N T) (i : fin N) :
  VecNT.construct storage !!! i = s_zero
  /\ VecNT.convert cast other storage !!! i = cast (other !!! i).
Proof.
  split.
  - apply (forEachIndex_update (fun _ _ => s_zero)).
  - apply (forEachIndex_update (fun i _ => cast (other !!! i))).
Qed.

End VecNTLoops.

Section VecNTOneMore.

Context {T : Type} `{Scalar T}.

Lemma foldl_under_cons {n : nat} {OT : Type} (cast : OT -> T) (x : OT)
    (lesser : vec OT n) (idxs : list (fin n)) (y : T) (d : vec T (S n)) :
  foldl (fun m_data i =>
           vinsert (VecNT.sameIndex (FS i)) (cast ((x ::: lesser) !!! FS i)) m_data)
        (y ::: d) idxs
  = y ::: foldl (fun m_data i => vinsert (VecNT.sameIndex i) (cast (lesser !!! i)) m_data)
                d idxs.
Proof.
  revert d. induction idxs as [|i idxs IH]; intros d; [reflexivity|].
  cbn [foldl]. rewrite <- IH. reflexivity.
Qed.

Lemma ofLesser_cons {n : nat} {OT : Type} (cast : OT -> T) (x : OT) (lesser : vec OT n)
    (last s : T) (storage : vec T (S n)) :
  VecNT.ofLesser cast (x ::: lesser) last (s ::: storage)
  = cast x ::: VecNT.ofLesser cast lesser last storage.
Proof.
  unfold VecNT.ofLesser, VecNT.forEachIndex.
  change (fin_enum (S n)) with (0%fin :: (FS <$> fin_enum n)).
  cbn [foldl]. rewrite foldl_fmap.
  change (vinsert (VecNT.sameIndex 0%fin) (cast ((x ::: lesser) !!! 0%fin)) (s ::: storage))
    with (cast x ::: storage).
  etrans.
  - apply (f_equal (vinsert (VecNT.lastIndex (S n)) last)).
    apply (foldl_under_cons cast x lesser (fin_enum n) (cast x) storage).
  - reflexivity.
Qed.

(** Takes the first element off a vector that has one. *)
Ltac vec_uncons v x :=
  revert v;
  match goal with |- forall v, @?P v => apply (vec_S_inv P) end;
  intros x v.

Lemma ofLesser_lookup_same {n : nat} {OT : Type} (cast : OT -> T) (i : fin n) :
  forall (lesser : vec OT n) (last : T) (storage : vec T (S n)),
    VecNT.ofLesser cast lesser last storage !!! VecNT.sameIndex i = cast (lesser !!! i).
Proof.
  induction i as [n|n i IH]; intros lesser last storage;
    vec_uncons lesser x; vec_uncons storage s;
    rewrite ofLesser_cons.
  - reflexivity.
  - cbn [VecNT.sameIndex]. apply (IH lesser last storage).
Qed.

Lemma ofLesser_lookup_last {n : nat} {OT : Type} (cast : OT -> T) :
  forall (lesser : vec OT n) (last : T) (storage : vec T (S n)),
    VecNT.ofLesser cast lesser last storage !!! VecNT.lastIndex n = last.
Proof.
  induction n as [|n IH]; intros lesser last storage.
  - unfold VecNT.ofLesser. apply vlookup_insert.
  - vec_uncons lesser x. vec_uncons storage s.
    rewrite ofLesser_cons. cbn [VecNT.lastIndex]. apply (IH lesser last storage).
Qed.

Lemma vec_to_list_ofLesser {n : nat} {OT : Type} (cast : OT -> T) :
  forall (lesser : vec OT n) (last : T) (storage : vec T (S n)),
    vec_to_list (VecNT.ofLesser cast lesser last storage)
    = (cast <$> vec_to_list lesser) ++ [last].
Proof.
  induction n as [|n IH]; intros lesser last storage.
  - inv_vec lesser. inv_vec storage. intros s. reflexivity.
  - vec_uncons lesser x. vec_uncons storage s.
    rewrite ofLesser_cons. cbn [vec_to_list fmap list_fmap app].
    rewrite (IH lesser last storage). reflexivity.
Qed.

Lemma sameIndex_to_nat {n : nat} (i : fin n) :
  fin_to_nat (VecNT.sameIndex i) = fin_to_nat i.
Proof. induction i as [n|n i IH]; [reflexivity|]. cbn. rewrite IH. reflexivity. Qed.

Lemma lastIndex_to_nat (n : nat) : fin_to_nat (VecNT.lastIndex n) = n.
Proof. induction n as [|n IH]; [reflexivity|]. cbn. rewrite IH. reflexivity. Qed.

(** The two accumulating loops, read as folds over the elements in order. *)
Lemma sum_loop_list {n : nat} (v : vec T n) (a : T) :
  foldl (fun acc i => s_add acc (v !!! i)) a (fin_enum n)
  = foldl s_add a (vec_to_list v).
Proof.
  revert a. induction v as [|x n v IH]; intros a; [reflexivity|].
  change (fin_enum (S n)) with (0%fin :: (FS <$> fin_enum n)).
  cbn [foldl vec_to_list]. rewrite foldl_fmap. apply IH.
Qed.

Lemma dot_loop_list {n : nat} (v w : vec T n) (a : T) :
  foldl (fun acc i => s_add acc (s_mul (v !!! i) (w !!! i))) a (fin_enum n)
  = foldl s_add a (zip_with s_mul (vec_to_list v) (vec_to_list w)).
Proof.
  revert w a. induction v as [|x n v IH]; intros w a.
  - inv_vec w. reflexivity.
  - vec_uncons w y.
    change (fin_enum (S n)) with (0%fin :: (FS <$> fin_enum n)).
    cbn [foldl vec_to_list zip_with]. rewrite foldl_fmap. apply IH.
Qed.

Lemma sum_list {n : nat} (v : VecNT.t n T) :
  VecNT.sum v = foldl s_add s_zero (vec_to_list v).
Proof. apply sum_loop_list. Qed.

Lemma dot_list {n : nat} (v w : VecNT.t n T) :
  VecNT.dot v w = foldl s_add s_zero (zip_with s_mul (vec_to_list v) (vec_to_list w)).
Proof. apply dot_loop_list. Qed.

(** X15.  The construction from a vector with one element less and a last
    element keeps the elements of the lesser vector, converted, at their
    indices, puts the last element at index [N - 1], and leaves nothing of
    what the storage held before: as a list the result is the converted
    lesser vector followed by the last element. *)
Theorem ofLesser_elements {n : nat} {OT : Type} (cast : OT -> T)
    (lesser : VecNT.t n OT) (last : T) (storage : VecNT.t (S n) T) :
  let this := VecNT.ofLesser cast lesser last storage in
  (forall i : fin n,
      this !!! VecNT.sameIndex i = cast (lesser !!! i)
      /\ fin_to_nat (VecNT.sameIndex i) = fin_to_nat i)
  /\ this !!! VecNT.lastIndex n = last
  /\ fin_to_nat (VecNT.lastIndex n) = n
  /\ vec_to_list this = (cast <$> vec_to_list lesser) ++ [last].
Proof.
  intros this. unfold this.
  split; [intros i; split; [apply ofLesser_lookup_same | apply sameIndex_to_nat]|].
  split; [apply ofLesser_lookup_last|].
  split; [apply lastIndex_to_nat | apply vec_to_list_ofLesser].
Qed.

(** X16.  Sum and squared norm of a vector built from a lesser vector and
    a last element: the loops run over the indices in order, so the sum is
    the sum of the converted lesser vector plus the last element, and the
    squared norm is the squared norm of the converted lesser vector plus
    the square of the last element, with that very association. *)
Theorem ofLesser_sum_and_norm {n : nat} {OT : Type} (cast : OT -> T)
    (lesser : VecNT.t n OT) (last : T) (storage : VecNT.t (S n) T) :
  let this := VecNT.ofLesser cast lesser last storage in
  VecNT.sum this = s_add (VecNT.sum (vmap cast lesser)) last
  /\ VecNT.squaredNorm this
     = s_add (VecNT.squaredNorm (vmap cast lesser)) (s_mul last last).
Proof.
  intros this. unfold this, VecNT.squaredNorm.
  rewrite !sum_list, !dot_list, vec_to_list_ofLesser, vec_to_list_map.
  split.
  - apply foldl_snoc.
  - rewrite zip_with_app by reflexivity. apply foldl_snoc.
Qed.

(** X17.  A two-element vector and a point convert into each other without
    loss when the casts between [T] and [qreal] undo each other (as they do
    for [T = double]): the point made from the vector made from a point is
    that point, and the vector made from the point made from a vector is
    that vector, whatever the storage held. *)
Theorem qpointf_round_trip `{RealCast T} (pt : QPointF.t) (v storage : VecNT.t 2 T) :
  (forall d : Q, toReal (ofReal d) = d) ->
  (forall e : T, ofReal (toReal e) = e) ->
  VecNT.toQPointF (VecNT.ofQPointF pt storage) = pt
  /\ VecNT.ofQPointF (VecNT.toQPointF v) storage = v.
Proof.
  intros Hto Hof. split.
  - unfold VecNT.toQPointF, VecNT.ofQPointF.
    rewrite vlookup_insert, (vlookup_insert_ne 1%fin 0%fin) by discriminate.
    rewrite vlookup_insert, !Hto. destruct pt; reflexivity.
  - unfold VecNT.toQPointF, VecNT.ofQPointF. cbn [QPointF.x QPointF.y].
    rewrite !Hof. inv_vec v. intros a b. inv_vec storage. intros s s'. reflexivity.
Qed.

(** X18.  The dot product does not depend on the order of its two vectors
    when the multiplication of [T] does not depend on the order of its
    factors. *)
Theorem dot_comm {N : nat} (v w : VecNT.t N T) :
  (forall a b : T, s_mul a b = s_mul b a) ->
  VecNT.dot v w = VecNT.dot w v.
Proof.
  intros Hcomm. unfold VecNT.dot, VecNT.forEachIndex.
  generalize (fin_enum N) (s_zero : T). intros idxs.
  induction idxs as [|i idxs IH]; intros a; [reflexivity|].
  cbn [foldl]. rewrite (Hcomm (v !!! i) (w !!! i)). apply IH.
Qed.

(** X19.  The squared norm is not negative, for any order on [T] in which
    [T()] and every square [a * a] are not negative and the sum of two
    elements that are not negative is not negative. *)
Theorem squaredNorm_nonneg {N : nat} (le : T -> T -> Prop) (v : VecNT.t N T) :
  le s_zero s_zero ->
  (forall a : T, le s_zero (s_mul a a)) ->
  (forall a b : T, le s_zero a -> le s_zero b -> le s_zero (s_add a b)) ->
  le s_zero (VecNT.squaredNorm v).
Proof.
  intros H0 Hsq Hadd. unfold VecNT.squaredNorm, VecNT.dot, VecNT.forEachIndex.
  assert (Hgen : forall (idxs : list (fin N)) (a : T),
             le s_zero a ->
             le s_zero (foldl (fun acc i => s_add acc (s_mul (v !!! i) (v !!! i))) a idxs)).
  { induction idxs as [|i idxs IH]; intros a Ha; [exact Ha|].
    cbn [foldl]. apply IH. apply Hadd; [exact Ha | apply Hsq]. }
  apply Hgen. exact H0.
Qed.

End VecNTOneMore.

Lemma qpointf_round_trip_witness :
  VecNT.toQPointF (VecNT.ofQPointF (QPointF.mk 3 4) [# 0; 0]) = QPointF.mk 3 4
  /\ VecNT.ofQPointF (VecNT.toQPointF [# 3; 4]) [# 0; 0] = [# 3; 4].
Proof.
  apply (qpointf_round_trip (T := Q)); intros d; reflexivity.
Defined.

Lemma division_multiplies_by_reciprocal_witness :
  let v : VecNT.t 2 Q := [# 2; 3] in
  VecNT.divideLeft 6 v !!! 0%fin <> 6 / (v !!! 0%fin)
  /\ VecNT.divideLeft 6 v !!! 0%fin == 1 # 3
  /\ 6 / (v !!! 0%fin) == 3.
Proof.
  intros v. split; [|split; by_evaluation].
  refine (proj2 (proj2 (proj2 (proj2
            (division_multiplies_by_reciprocal (T := Q) v 6 0%fin)))) _).
  by_evaluation.
Defined.

Lemma dot_comm_witness :
  VecNT.dot [# 1; 2 # 3; 3] [# 4; 5; 6 # 7] = VecNT.dot [# 4; 5; 6 # 7] [# 1; 2 # 3; 3].
Proof.
  apply (dot_comm (T := Q)).
  intros [a b] [c d]. cbn. unfold Qmult. cbn.
  rewrite (Z.mul_comm a c), (Pos.mul_comm b d). reflexivity.
Defined.

Lemma squaredNorm_nonneg_witness : 0 <= VecNT.squaredNorm [# 1; - (2 # 3); 3].
Proof.
  refine (squaredNorm_nonneg (T := Q) Qle [# 1; - (2 # 3); 3] _ _ _); cbn.
  - lra.
  - intros a. nra.
  - intros a b Ha Hb. lra.
Defined.
